(** * Online-Pet-Adoption: the hero slider and the stagger helper

    A shallow embedding of [static/js/modern-slider.js] (class
    [ModernHeroSlider]) and of [Motion.calculateStaggerDelays] from
    [static/js/motion.js], with the properties of the carousel stated in the
    project's design document.

    Conventions of the embedding:
    - a JavaScript number that the code uses as a pixel coordinate, a delay in
      milliseconds, an identifier or an age is a [Z]; a slide index is a
      [JS.number], an integer or [NaN], since the code can compute [NaN] and
      compares indices with [===]; arithmetic is exact, as JavaScript's is on
      safe integers (magnitude at most 2^53 - 1), and the theorems that depend
      on the value of a sum say so;
    - text is ASCII text: a Rocq string is a JavaScript string whose
      characters are all below 128;
    - the two node lists [slides] and [dots] are lists of booleans, the
      boolean being the presence of the class [active] on the element; an
      access [list[i]?.classList...] outside the list does nothing;
    - an element looked up with [document.getElementById] is an
      [option string]: [None] when the page has no such element, otherwise the
      text (or the [href]) it currently shows;
    - the browser's timers are part of the state: the interval of the
      autoplay, the queue of pending [setTimeout] callbacks and the queue of
      pending [.call] callbacks of the GSAP timelines.  Firing one of them is
      an event of its own, so every interleaving of timers and user input is
      covered. *)

From Stdlib Require Import ZArith String Ascii Lia Bool.
From Stdlib Require Import DecimalString DecimalPos DecimalZ.
From stdpp Require Import base list strings gmap.

Local Open Scope string_scope.
Local Open Scope list_scope.
Local Open Scope Z_scope.

(** ** JavaScript library functions used by the slider *)

Module JS.

(** The numbers that serve as slide indices: integers and [NaN]. *)
Inductive number :=
| Int (z : Z)
| NaN.

(** [Number.isSafeInteger(n)] for an integer [n]: the integers on which
    JavaScript's arithmetic and its printing are those of the integers. *)
Definition isSafeInteger (n : Z) : Prop := Z.abs n <= 2 ^ 53 - 1.

(** The indices whose successor and predecessor JavaScript computes exactly:
    the safe integers and [NaN]. *)
Definition exact (a : number) : Prop :=
  match a with
  | Int z => isSafeInteger z
  | NaN => True
  end.

(** [a === b] on numbers: [NaN] is equal to nothing, itself included. *)
Definition strictEq (a b : number) : bool :=
  match a, b with
  | Int x, Int y => x =? y
  | _, _ => false
  end.

(** [a + k] for an integer [k], computed on the integers: this is
    JavaScript's sum when [a] is a safe integer or [NaN] (see [exact]); from
    2^53 on JavaScript rounds the sum. *)
Definition add (a : number) (k : Z) : number :=
  match a with
  | Int x => Int (x + k)
  | NaN => NaN
  end.

(** [n > a] for an integer [n]: false against [NaN]. *)
Definition gt (n : Z) (a : number) : bool :=
  match a with
  | Int x => n >? x
  | NaN => false
  end.

(** [String(n)] and the template literal [`${n}`] for a safe integer [n]:
    the decimal numeral.  (Beyond the safe integers JavaScript prints the
    shortest numeral that reads back as the same double, in exponent notation
    from 10^21; the theorems about printed numbers are stated for safe
    integers.) *)
Definition String_ (n : Z) : string :=
  NilZero.string_of_int (Z.to_int n).

(** The filler of [padStart]: the first [n] characters of [pad] repeated.
    [cur] is what is left of the copy of [pad] being written. *)
Fixpoint filler (n : nat) (cur pad : string) : string :=
  match n with
  | O => EmptyString
  | S k =>
      match cur with
      | String c rest => String c (filler k rest pad)
      | EmptyString =>
          match pad with
          | String c rest => String c (filler k rest pad)
          | EmptyString => EmptyString
          end
      end
  end.

(** [str.padStart(targetLength, padString)]. *)
Definition padStart (str : string) (targetLength : nat) (padString : string)
  : string :=
  let len := String.length str in
  if (targetLength <=? len)%nat then str
  else match padString with
       | EmptyString => str
       | _ => (filler (targetLength - len) padString padString ++ str)%string
       end.

(** The strings of the model: every character is below 128. *)
Definition isAscii (s : string) : Prop :=
  Forall (fun c => (nat_of_ascii c < 128)%nat) (list_ascii_of_string s).

(** [c.toUpperCase()] on one ASCII character. *)
Definition upper_ascii (c : ascii) : ascii :=
  let n := nat_of_ascii c in
  if ((97 <=? n) && (n <=? 122))%nat then ascii_of_nat (n - 32) else c.

(** [str.toUpperCase()], for ASCII text. *)
Fixpoint toUpperCase (s : string) : string :=
  match s with
  | EmptyString => EmptyString
  | String c rest => String (upper_ascii c) (toUpperCase rest)
  end.

(** [a % b] for an integer [b]: the remainder has the sign of the dividend,
    and is [NaN] when the divisor is 0 or the dividend is [NaN]. *)
Definition rem (a : number) (b : Z) : number :=
  match a with
  | Int x => if b =? 0 then NaN else Int (Z.rem x b)
  | NaN => NaN
  end.

(** [Math.abs] on integers. *)
Definition abs (a : Z) : Z := Z.abs a.

(** [list[i]] for a JavaScript index: [undefined] (here [None]) outside
    the list. *)
Definition at_ {A} (l : list A) (i : Z) : option A :=
  if i <? 0 then None else l !! Z.to_nat i.

End JS.

(** ** The data of the slider *)

(** A pet summary of [window.petsData]. *)
Record Pet := mkPet {
  pet_id : Z;
  pet_name : string;
  pet_age : Z;
  pet_breed : string
}.

(** The part of the page the slider reads and writes. *)
Record Dom := mkDom {
  container : bool;              (* #heroSlider exists *)
  slides : list bool;            (* .hero-slide, class active *)
  dots : list bool;              (* .slider-dot, class active *)
  heroTitle : option string;     (* #heroTitle, textContent *)
  heroCTA1 : option string;      (* #heroCTA1, href *)
  heroCTA2 : option string;      (* #heroCTA2, href *)
  petCounter : option string;    (* #petCounter, textContent *)
  petAge : option string;        (* #petAge, textContent *)
  petBreed : option string       (* #petBreed, textContent *)
}.

(** The options object given to the constructor; [None] is an absent key. *)
Record Options := mkOptions {
  opt_pets : option (list Pet);
  opt_autoPlay : option bool;
  opt_autoPlayDelay : option Z
}.

(** An instance of [ModernHeroSlider] together with the timers it owns. *)
Record Slider := mkSlider {
  dom : Dom;
  pets : list Pet;
  currentIndex : JS.number;
  isTransitioning : bool;
  autoPlay : bool;
  autoPlayDelay : Z;
  autoPlayTimer : option Z;  (* setInterval(nextSlide, period): the period *)
  timeouts : list Z;         (* pending setTimeout(reset flag, delay): the delays *)
  timeline : list JS.number; (* pending timeline .call(updateContent(index)) *)
  listening : bool;          (* setupEventListeners has run *)
  touchStart : Z * Z;        (* startX, startY of setupTouchEvents *)
  touchEnd : Z * Z           (* endX, endY of setupTouchEvents *)
}.

(** Field updates ([this.f = v]). *)
Definition set_dom (d : Dom) (s : Slider) : Slider :=
  mkSlider d (pets s) (currentIndex s) (isTransitioning s) (autoPlay s)
    (autoPlayDelay s) (autoPlayTimer s) (timeouts s) (timeline s)
    (listening s) (touchStart s) (touchEnd s).

Definition set_currentIndex (i : JS.number) (s : Slider) : Slider :=
  mkSlider (dom s) (pets s) i (isTransitioning s) (autoPlay s)
    (autoPlayDelay s) (autoPlayTimer s) (timeouts s) (timeline s)
    (listening s) (touchStart s) (touchEnd s).

Definition set_isTransitioning (b : bool) (s : Slider) : Slider :=
  mkSlider (dom s) (pets s) (currentIndex s) b (autoPlay s)
    (autoPlayDelay s) (autoPlayTimer s) (timeouts s) (timeline s)
    (listening s) (touchStart s) (touchEnd s).

Definition set_autoPlay (b : bool) (s : Slider) : Slider :=
  mkSlider (dom s) (pets s) (currentIndex s) (isTransitioning s) b
    (autoPlayDelay s) (autoPlayTimer s) (timeouts s) (timeline s)
    (listening s) (touchStart s) (touchEnd s).

Definition set_autoPlayTimer (t : option Z) (s : Slider) : Slider :=
  mkSlider (dom s) (pets s) (currentIndex s) (isTransitioning s) (autoPlay s)
    (autoPlayDelay s) t (timeouts s) (timeline s)
    (listening s) (touchStart s) (touchEnd s).

Definition set_timeouts (q : list Z) (s : Slider) : Slider :=
  mkSlider (dom s) (pets s) (currentIndex s) (isTransitioning s) (autoPlay s)
    (autoPlayDelay s) (autoPlayTimer s) q (timeline s)
    (listening s) (touchStart s) (touchEnd s).

Definition set_timeline (q : list JS.number) (s : Slider) : Slider :=
  mkSlider (dom s) (pets s) (currentIndex s) (isTransitioning s) (autoPlay s)
    (autoPlayDelay s) (autoPlayTimer s) (timeouts s) q
    (listening s) (touchStart s) (touchEnd s).

Definition set_listening (b : bool) (s : Slider) : Slider :=
  mkSlider (dom s) (pets s) (currentIndex s) (isTransitioning s) (autoPlay s)
    (autoPlayDelay s) (autoPlayTimer s) (timeouts s) (timeline s)
    b (touchStart s) (touchEnd s).

Definition set_touchStart (p : Z * Z) (s : Slider) : Slider :=
  mkSlider (dom s) (pets s) (currentIndex s) (isTransitioning s) (autoPlay s)
    (autoPlayDelay s) (autoPlayTimer s) (timeouts s) (timeline s)
    (listening s) p (touchEnd s).

Definition set_touchEnd (p : Z * Z) (s : Slider) : Slider :=
  mkSlider (dom s) (pets s) (currentIndex s) (isTransitioning s) (autoPlay s)
    (autoPlayDelay s) (autoPlayTimer s) (timeouts s) (timeline s)
    (listening s) (touchStart s) p.

(** ** The methods of [ModernHeroSlider] *)

(** [list[i]?.classList.add("active")] ([b = true]) and [...remove("active")]
    ([b = false]) for an integer [i]. *)
Definition classList_active (l : list bool) (i : Z) (b : bool) : list bool :=
  if i <? 0 then l else <[Z.to_nat i := b]> l.

(** The same for a number: [list[NaN]] is [undefined], and [?.] skips it. *)
Definition classList_at (l : list bool) (a : JS.number) (b : bool)
  : list bool :=
  match a with
  | JS.Int i => classList_active l i b
  | JS.NaN => l
  end.

(** [el.textContent = v] (or [el.href = v]) under [if (el)]. *)
Definition assign (el : option string) (v : string) : option string :=
  match el with
  | Some _ => Some v
  | None => None
  end.

(** The text of [#petCounter]: [String(index + 1).padStart(2, "0")]. *)
Definition counterText (index : Z) : string :=
  JS.padStart (JS.String_ (index + 1)) 2 "0".

(** The template literal [`${pet.age} ${pet.age === 1 ? "year" : "years"}`],
    given the text [numeral] that the number [pet.age] prints as. *)
Definition ageTextOf (numeral : string) (age : Z) : string :=
  (numeral ++ " " ++ (if (age =? 1)%Z then "year" else "years"))%string.

(** The text of [#petAge]. *)
Definition ageText (age : Z) : string := ageTextOf (JS.String_ age) age.

(** The [href] of the two call-to-action links: [`/adopt/${pet.id}`]. *)
Definition adoptHref (id : Z) : string :=
  ("/adopt/" ++ JS.String_ id)%string.

(** [updateContent(index)] for an integer [index], on the page. *)
Definition updateContent_dom (ps : list Pet) (index : Z) (d : Dom) : Dom :=
  match JS.at_ ps index with
  | None => d
  | Some pet =>
      mkDom (container d) (slides d) (dots d)
        (assign (heroTitle d) (JS.toUpperCase (pet_name pet)))
        (assign (heroCTA1 d) (adoptHref (pet_id pet)))
        (assign (heroCTA2 d) (adoptHref (pet_id pet)))
        (assign (petCounter d) (counterText index))
        (assign (petAge d) (ageText (pet_age pet)))
        (assign (petBreed d) (pet_breed pet))
  end.

(** [updateContent(index)]; [this.pets[NaN]] is [undefined], and the method
    returns at [if (!pet)]. *)
Definition updateContent (index : JS.number) (s : Slider) : Slider :=
  match index with
  | JS.Int i => set_dom (updateContent_dom (pets s) i (dom s)) s
  | JS.NaN => s
  end.

(** The class changes of [updateSlide]: [active] leaves the current slide and
    dot, then is put on the slide and the dot at [index]. *)
Definition toggleActive (cur index : JS.number) (d : Dom) : Dom :=
  mkDom (container d)
    (classList_at (classList_at (slides d) cur false) index true)
    (classList_at (classList_at (dots d) cur false) index true)
    (heroTitle d) (heroCTA1 d) (heroCTA2 d)
    (petCounter d) (petAge d) (petBreed d).

(** [animateSlideTransition(index)]: the timeline fades the content out,
    calls [updateContent(index)], and fades it in.  The call is queued. *)
Definition animateSlideTransition (index : JS.number) (s : Slider) : Slider :=
  set_timeline (timeline s ++ [index]) s.

(** [updateSlide(index, animate)]. *)
Definition updateSlide (index : JS.number) (animate : bool) (s : Slider)
  : Slider :=
  if isTransitioning s && animate then s
  else
    let s1 := set_isTransitioning true s in
    let s2 := set_dom (toggleActive (currentIndex s1) index (dom s1)) s1 in
    let s3 := if JS.gt (Z.of_nat (length (pets s2))) index
              then updateContent index s2 else s2 in
    let s4 := if animate then animateSlideTransition index s3 else s3 in
    let s5 := set_currentIndex index s4 in
    set_timeouts (timeouts s5 ++ [if animate then 800 else 0]) s5.

(** [goToSlide(index)]. *)
Definition goToSlide (index : JS.number) (s : Slider) : Slider :=
  if isTransitioning s || JS.strictEq index (currentIndex s) then s
  else updateSlide index true s.

(** [this.slides.length]. *)
Definition slideCount (s : Slider) : Z := Z.of_nat (length (slides (dom s))).

(** [nextSlide()]. *)
Definition nextSlide (s : Slider) : Slider :=
  if isTransitioning s then s
  else goToSlide (JS.rem (JS.add (currentIndex s) 1) (slideCount s)) s.

(** [prevSlide()]. *)
Definition prevSlide (s : Slider) : Slider :=
  if isTransitioning s then s
  else
    goToSlide (if JS.strictEq (currentIndex s) (JS.Int 0)
               then JS.Int (slideCount s - 1)
               else JS.add (currentIndex s) (-1)) s.

(** [pauseAutoPlay()]. *)
Definition pauseAutoPlay (s : Slider) : Slider :=
  match autoPlayTimer s with
  | Some _ => set_autoPlayTimer None s
  | None => s
  end.

(** [startAutoPlay()]. *)
Definition startAutoPlay (s : Slider) : Slider :=
  if negb (autoPlay s) || (slideCount s <=? 1) then s
  else
    let s1 := pauseAutoPlay s in
    set_autoPlayTimer (Some (autoPlayDelay s1)) s1.

(** [play()], [pause()] and [destroy()]. *)
Definition play (s : Slider) : Slider := startAutoPlay (set_autoPlay true s).
Definition pause (s : Slider) : Slider := pauseAutoPlay (set_autoPlay false s).
Definition destroy (s : Slider) : Slider := pauseAutoPlay s.

(** ** The input router *)

(** Every input ends in one of three calls. *)
Inductive Command :=
| Next
| Prev
| GoTo (index : JS.number).

Definition run (c : Command) (s : Slider) : Slider :=
  match c with
  | Next => nextSlide s
  | Prev => prevSlide s
  | GoTo index => goToSlide index s
  end.

Definition run_all (cs : list Command) (s : Slider) : Slider :=
  fold_left (fun acc c => run c acc) cs s.

(** The [keydown] listener: two independent tests on [e.key]. *)
Definition keydownCommands (key : string) : list Command :=
  (if String.eqb key "ArrowLeft" then [Prev] else []) ++
  (if String.eqb key "ArrowRight" then [Next] else []).

(** The [touchend] listener of [setupTouchEvents], from the coordinates of
    the touch start and of the touch end. *)
Definition swipeCommands (startX startY endX endY : Z) : list Command :=
  let diffX := startX - endX in
  let diffY := startY - endY in
  if (JS.abs diffX >? JS.abs diffY) && (JS.abs diffX >? 50) then
    if diffX >? 0 then [Next] else [Prev]
  else [].

(** What can happen to a slider: the listeners registered by
    [setupEventListeners], the three timers, and the public methods. *)
Inductive Event :=
| ClickPrev
| ClickNext
| ClickDot (i : nat)
| KeyDown (key : string)
| MouseEnter
| MouseLeave
| TouchStart (x y : Z)
| TouchEnd (x y : Z)
| IntervalTick                 (* the autoplay interval fires *)
| TimeoutFire                  (* the oldest pending setTimeout fires *)
| TimelineCall                 (* the oldest pending timeline call fires *)
| Call (c : Command)           (* nextSlide(), prevSlide(), goToSlide(i) *)
| CallPlay
| CallPause
| CallDestroy.

(** The callback given to [setTimeout] in [updateSlide]. *)
Definition fireTimeout (s : Slider) : Slider :=
  match timeouts s with
  | [] => s
  | _ :: rest => set_isTransitioning false (set_timeouts rest s)
  end.

(** The [.call] of the timeline built by [animateSlideTransition]. *)
Definition fireTimelineCall (s : Slider) : Slider :=
  match timeline s with
  | [] => s
  | index :: rest => updateContent index (set_timeline rest s)
  end.

(** The callback given to [setInterval] in [startAutoPlay]. *)
Definition fireInterval (s : Slider) : Slider :=
  match autoPlayTimer s with
  | Some _ => nextSlide s
  | None => s
  end.

(** A listener runs only once [setupEventListeners] has registered it; a dot
    listener exists for each dot of the page. *)
Definition listener (s : Slider) (handler : Slider -> Slider) : Slider :=
  if listening s then handler s else s.

Definition step (e : Event) (s : Slider) : Slider :=
  match e with
  | ClickPrev => listener s prevSlide
  | ClickNext => listener s nextSlide
  | ClickDot i =>
      listener s (fun s =>
        if (i <? length (dots (dom s)))%nat
        then goToSlide (JS.Int (Z.of_nat i)) s
        else s)
  | KeyDown key => listener s (run_all (keydownCommands key))
  | MouseEnter => listener s pauseAutoPlay
  | MouseLeave => listener s startAutoPlay
  | TouchStart x y => listener s (set_touchStart (x, y))
  | TouchEnd x y =>
      listener s (fun s =>
        let s1 := set_touchEnd (x, y) s in
        run_all (swipeCommands (fst (touchStart s1)) (snd (touchStart s1))
                   (fst (touchEnd s1)) (snd (touchEnd s1))) s1)
  | IntervalTick => fireInterval s
  | TimeoutFire => fireTimeout s
  | TimelineCall => fireTimelineCall s
  | Call c => run c s
  | CallPlay => play s
  | CallPause => pause s
  | CallDestroy => destroy s
  end.

Definition steps (es : list Event) (s : Slider) : Slider :=
  fold_left (fun acc e => step e acc) es s.

(** ** Construction *)

(** [setupEventListeners()] registers the listeners that [step] runs.  (The
    listeners of the two arrows are registered only when the buttons exist;
    a click on an absent button is an event that does not occur.) *)
Definition setupEventListeners (s : Slider) : Slider := set_listening true s.

(** [init()].  ([initializeAnimations] only sets opacities and offsets, which
    the model does not keep.) *)
Definition init (s : Slider) : Slider :=
  if negb (container (dom s)) || (slideCount s =? 0) then s
  else
    let s1 := setupEventListeners s in
    let s2 := if autoPlay s1 then startAutoPlay s1 else s1 in
    updateSlide (JS.Int 0) false s2.

(** [options.autoPlayDelay || 5000]: an absent key and [0] are both falsy. *)
Definition autoPlayDelay_of (o : option Z) : Z :=
  match o with
  | Some d => if d =? 0 then 5000 else d
  | None => 5000
  end.

(** [options.autoPlay !== false]. *)
Definition autoPlay_of (o : option bool) : bool :=
  match o with
  | Some false => false
  | _ => true
  end.

(** [new ModernHeroSlider(options)] on a page. *)
Definition construct (options : Options) (page : Dom) : Slider :=
  init (mkSlider page (default [] (opt_pets options)) (JS.Int 0) false
          (autoPlay_of (opt_autoPlay options))
          (autoPlayDelay_of (opt_autoPlayDelay options))
          None [] [] false (0, 0) (0, 0)).

(** The options of the [DOMContentLoaded] listener at the end of the file;
    [petsData] is [window.petsData]. *)
Definition pageOptions (petsData : option (list Pet)) : Options :=
  mkOptions (Some (default [] petsData)) (Some true) (Some 6000).

(** The initialized sliders: constructed on a page that has the container
    and at least one slide, then driven by any events. *)
Inductive reachable : Slider -> Prop :=
| reach_construct options page :
    container page = true -> slides page <> [] ->
    reachable (construct options page)
| reach_step e s : reachable s -> reachable (step e s).

(** ** [Motion.calculateStaggerDelays] *)

Module Motion.

(** The [from] option: a string (['start'], ['end'], ['center'], anything
    else) or a number. *)
Inductive From :=
| FromString (name : string)
| FromNumber (k : Z).

Section StaggerDelays.

(** The delays are JavaScript numbers; [mul k d] is the product [k * d] of
    an integer [k] and the stagger delay [d].  Nothing else is asked of
    them, so the results hold for floating-point products as well as for
    exact ones. *)
Variable T : Type.
Variable mul : Z -> T -> T.

(** [delays[i] = v]: replaces entry [i], or appends when [i] is the
    length.  (The loops below never write further out.) *)
Definition array_set (delays : list T) (i : nat) (v : T) : list T :=
  if (i <? length delays)%nat then <[i := v]> delays
  else if (i =? length delays)%nat then delays ++ [v]
  else delays.

(** [for (let i = 0; i < length; i++) delays[i] = f(i)]. *)
Definition for_loop (length : Z) (f : Z -> T) (delays : list T) : list T :=
  fold_left (fun acc i => array_set acc i (f (Z.of_nat i)))
    (seq 0 (Z.to_nat length)) delays.

Definition calculateStaggerDelays (length : Z) (staggerDelay : T)
    (from : From) : list T :=
  let delays := [] in
  let delays :=
    match from with
    | FromString "end" =>
        for_loop length (fun i => mul (length - 1 - i) staggerDelay) delays
    | FromString "center" =>
        let center := length / 2 in
        for_loop length (fun i => mul (JS.abs (i - center)) staggerDelay)
          delays
    | _ =>
        for_loop length (fun i => mul i staggerDelay) delays
    end in
  match from with
  | FromNumber k =>
      for_loop length (fun i => mul (JS.abs (i - k)) staggerDelay) delays
  | FromString _ => delays
  end.

End StaggerDelays.

Arguments array_set {T} delays i v.
Arguments for_loop {T} length f delays.
Arguments calculateStaggerDelays {T} mul length staggerDelay from.

End Motion.

(** ** [MotionElement]: the two helper methods *)

Module MotionElement.

(** The object literal [easingMap] of [convertEasing]. *)
Definition easingMap : gmap string string :=
  list_to_map
    [("linear", "none"); ("easeIn", "power2.in"); ("easeOut", "power2.out");
     ("easeInOut", "power2.inOut"); ("anticipate", "back.out(1.7)");
     ("backIn", "back.in(1.7)"); ("backOut", "back.out(1.7)");
     ("backInOut", "back.inOut(1.7)"); ("bounceIn", "bounce.in");
     ("bounceOut", "bounce.out"); ("bounceInOut", "bounce.inOut");
     ("elasticIn", "elastic.in(1, 0.3)"); ("elasticOut", "elastic.out(1, 0.3)");
     ("elasticInOut", "elastic.inOut(1, 0.3)")].

(** The names that every object literal answers to besides its own keys:
    the properties of [Object.prototype], all of them truthy. *)
Definition objectPrototypeKeys : list string :=
  ["constructor"; "hasOwnProperty"; "isPrototypeOf"; "propertyIsEnumerable";
   "toLocaleString"; "toString"; "valueOf"; "__proto__";
   "__defineGetter__"; "__defineSetter__"; "__lookupGetter__";
   "__lookupSetter__"].

(** What [convertEasing] returns: the name of an ease, or, for a name that
    [easingMap] inherits, the inherited function or object. *)
Inductive Easing :=
| EaseName (name : string)
| Inherited (key : string).

(** [convertEasing(ease)]: [easingMap[ease] || ease]. *)
Definition convertEasing (ease : string) : Easing :=
  match easingMap !! ease with
  | Some gsapEase =>
      if String.eqb gsapEase "" then EaseName ease else EaseName gsapEase
  | None =>
      if bool_decide (ease ∈ objectPrototypeKeys) then Inherited ease
      else EaseName ease
  end.

(** The [switch] of [getResetState]: the value a property is reset to, for
    the properties it knows. *)
Definition resetValue (key : string) : option Z :=
  if bool_decide (key ∈ ["x"; "y"; "z"; "rotateX"; "rotateY"; "rotateZ";
                         "rotate"])
  then Some 0
  else if bool_decide (key ∈ ["scale"; "scaleX"; "scaleY"; "opacity"])
  then Some 1
  else if bool_decide (key ∈ ["skewX"; "skewY"])
  then Some 0
  else None.

(** [getResetState(animation)]: the loop over [Object.keys(animation)] that
    fills [reset]. *)
Definition getResetState {V} (animation : gmap string V) : gmap string Z :=
  map_fold
    (fun key _ reset =>
       match resetValue key with
       | Some v => <[key := v]> reset
       | None => reset
       end)
    ∅ animation.

End MotionElement.

(** ** [PetFilter.debounce] *)

Module Debounce.

Section Debounced.

(** The arguments of the debounced function. *)
Variable A : Type.

(** The state of one function returned by [debounce(func, wait)]: the
    pending [setTimeout(later, wait)], with the arguments its closure holds,
    and the calls of [func] made so far. *)
Record State := mkState {
  pending : option (Z * A);
  calls : list A
}.

(** A call of the returned function: [clearTimeout(timeout)] drops the
    pending timer, [setTimeout(later, wait)] sets a new one. *)
Definition invoke (wait : Z) (args : A) (st : State) : State :=
  mkState (Some (wait, args)) (calls st).

(** The pending timer fires: [later] calls [func(...args)]. *)
Definition expire (st : State) : State :=
  match pending st with
  | Some (_, args) => mkState None (calls st ++ [args])
  | None => st
  end.

(** What happens to a debounced function. *)
Inductive Event :=
| Invoke (args : A)
| Expire.

Definition step (wait : Z) (e : Event) (st : State) : State :=
  match e with
  | Invoke args => invoke wait args st
  | Expire => expire st
  end.

Definition steps (wait : Z) (es : list Event) (st : State) : State :=
  fold_left (fun acc e => step wait e acc) es st.

(** [debounce(func, wait)] before its first call. *)
Definition debounce : State := mkState None [].

End Debounced.

Arguments mkState {A} pending calls.
Arguments pending {A} s.
Arguments calls {A} s.
Arguments invoke {A} wait args st.
Arguments expire {A} st.
Arguments Invoke {A} args.
Arguments Expire {A}.
Arguments step {A} wait e st.
Arguments steps {A} wait es st.
Arguments debounce {A}.

End Debounce.

(** ** [ThemeToggle] *)

Module ThemeToggle.

(** The instance with the two places it writes: the item [theme] of
    [localStorage] and the attribute [data-theme] of the document element. *)
Record State := mkState {
  theme : string;
  stored : option string;
  attribute : option string
}.

(** [applyTheme()]. *)
Definition applyTheme (t : State) : State :=
  mkState (theme t) (stored t) (Some (theme t)).

(** [new ThemeToggle()], from what [localStorage] holds and the attribute
    the document has: [localStorage.getItem('theme') || 'light'], then
    [init()]. *)
Definition construct (storage : option string) (attr : option string) : State :=
  let theme :=
    match storage with
    | Some v => if String.eqb v "" then "light" else v
    | None => "light"
    end in
  applyTheme (mkState theme storage attr).


End ThemeToggle.

(** ** [utils.setButtonLoading] *)

Module Utils.

(** A button: its [innerHTML] (the string last assigned), [disabled], and
    [dataset.originalText]. *)
Record Button := mkButton {
  innerHTML : string;
  disabled : bool;
  originalText : option string
}.

(** The markup of the spinner:
    [<i class="fas fa-spinner fa-spin"></i> Loading...]. *)
Definition spinner : string :=
  ("<i class=" ++ String (ascii_of_nat 34) "fas fa-spinner fa-spin"
   ++ String (ascii_of_nat 34) "></i> Loading...")%string.

(** [setButtonLoading(button, loading)]. *)
Definition setButtonLoading (button : Button) (loading : bool) : Button :=
  if loading then
    mkButton spinner true (Some (innerHTML button))
  else
    mkButton
      (match originalText button with
       | Some text => if String.eqb text "" then innerHTML button else text
       | None => innerHTML button
       end)
      false (originalText button).

End Utils.

(** ** The mobile menu *)

Module MobileMenu.

(** The menu and the [path] elements of its button; of each element only the
    classes [hidden] and [inline-flex] are kept. *)
Record Classes := mkClasses {
  hidden : bool;
  inlineFlex : bool
}.

Record State := mkState {
  menu : Classes;
  paths : list Classes
}.

(** A listener runs to its end or stops at a [TypeError], with the page as
    it is at that point. *)
Inductive Outcome :=
| Done (st : State)
| Thrown (st : State).

(** [paths[i].classList.add/remove(...)] twice on one path: a [TypeError]
    when there is no such path. *)
Definition setPath (i : nat) (c : Classes) (st : State) : option State :=
  match paths st !! i with
  | Some _ => Some (mkState (menu st) (<[i := c]> (paths st)))
  | None => None
  end.

(** The icon of a closed menu: first path shown, second hidden. *)
Definition showClosed (st : State) : Outcome :=
  match setPath 0 (mkClasses false true) st with
  | None => Thrown st
  | Some st1 =>
      match setPath 1 (mkClasses true false) st1 with
      | None => Thrown st1
      | Some st2 => Done st2
      end
  end.

(** The icon of an open menu: first path hidden, second shown. *)
Definition showOpen (st : State) : Outcome :=
  match setPath 0 (mkClasses true false) st with
  | None => Thrown st
  | Some st1 =>
      match setPath 1 (mkClasses false true) st1 with
      | None => Thrown st1
      | Some st2 => Done st2
      end
  end.

Definition setMenuHidden (b : bool) (st : State) : State :=
  mkState (mkClasses b (inlineFlex (menu st))) (paths st).

(** The [click] listener of the button. *)
Definition clickButton (st : State) : Outcome :=
  let isOpen := negb (hidden (menu st)) in
  if isOpen then showClosed (setMenuHidden true st)
  else showOpen (setMenuHidden false st).

(** The [click] listener of the document, for a click outside the button
    and the menu ([outside = true]) or inside one of them. *)
Definition clickDocument (outside : bool) (st : State) : Outcome :=
  if outside then
    if negb (hidden (menu st)) then showClosed (setMenuHidden true st)
    else Done st
  else Done st.

End MobileMenu.

(** ** Vocabulary of the properties *)

(** Reading a decimal numeral back, to say what a rendered number denotes. *)
Definition numeralValue (s : string) : option Z :=
  option_map Z.of_int (NilZero.int_of_string s).

(** The transitions in flight: started by [updateSlide] and not yet completed
    by its [setTimeout] callback. *)
Definition inFlight (s : Slider) : nat := length (timeouts s).

(** What the page displays about the current pet. *)
Definition content (d : Dom)
  : option string * option string * option string *
    option string * option string * option string :=
  (heroTitle d, heroCTA1 d, heroCTA2 d, petCounter d, petAge d, petBreed d).

(** An index that is the index of one of [n] slides. *)
Definition indexInRange (a : JS.number) (n : Z) : Prop :=
  match a with
  | JS.Int i => 0 <= i < n
  | JS.NaN => False
  end.

(** An event whose [goToSlide] index, if it has one, is the index of a
    slide. *)
Definition gotoInBounds (n : Z) (e : Event) : Prop :=
  match e with
  | Call (GoTo index) => indexInRange index n
  | ClickDot i => Z.of_nat i < n
  | _ => True
  end.

(** The index a command asks for, as [nextSlide], [prevSlide] and
    [goToSlide] compute it. *)
Definition commandTarget (c : Command) (s : Slider) : JS.number :=
  match c with
  | Next => JS.rem (JS.add (currentIndex s) 1) (slideCount s)
  | Prev => if JS.strictEq (currentIndex s) (JS.Int 0)
            then JS.Int (slideCount s - 1)
            else JS.add (currentIndex s) (-1)
  | GoTo index => index
  end.

(** The page after the synchronous part of an accepted [updateSlide]. *)
Definition pageAfter (index : JS.number) (s : Slider) : Dom :=
  let d := toggleActive (currentIndex s) index (dom s) in
  match index with
  | JS.Int i =>
      if Z.of_nat (length (pets s)) >? i
      then updateContent_dom (pets s) i d else d
  | JS.NaN => d
  end.

Arguments pageAfter : simpl never.

(** The commands an event can issue. *)
Definition mayIssue (e : Event) (c : Command) : Prop :=
  match e with
  | ClickPrev => c = Prev
  | ClickNext => c = Next
  | ClickDot i => c = GoTo (JS.Int (Z.of_nat i))
  | KeyDown _ => c = Prev \/ c = Next
  | TouchEnd _ _ => c = Prev \/ c = Next
  | IntervalTick => c = Next
  | Call c' => c = c'
  | _ => False
  end.

(** What an event does to the index, the flag and the pending timeouts:
    nothing, the start of a transition by a command of the event, or the
    completion of the transition in flight by its timeout. *)
Inductive transitionEffect (e : Event) (s s' : Slider) : Prop :=
| effect_none :
    currentIndex s' = currentIndex s ->
    isTransitioning s' = isTransitioning s ->
    timeouts s' = timeouts s ->
    transitionEffect e s s'
| effect_start c :
    mayIssue e c ->
    isTransitioning s = false ->
    isTransitioning s' = true ->
    timeouts s' = timeouts s ++ [800] ->
    currentIndex s' = commandTarget c s ->
    JS.strictEq (commandTarget c s) (currentIndex s) = false ->
    transitionEffect e s s'
| effect_complete d :
    e = TimeoutFire ->
    timeouts s = d :: timeouts s' ->
    isTransitioning s' = false ->
    currentIndex s' = currentIndex s ->
    transitionEffect e s s'.

(** What no event changes. *)
Definition sameSetting (s s' : Slider) : Prop :=
  slideCount s' = slideCount s /\ pets s' = pets s /\
  autoPlayDelay s' = autoPlayDelay s.

(** One pending timeout exactly while the flag is set. *)
Definition flagInvariant (s : Slider) : Prop :=
  inFlight s = if isTransitioning s then 1%nat else 0%nat.

(** No transition in flight. *)
Definition idle (s : Slider) : Prop :=
  isTransitioning s = false /\ timeouts s = [].

(** A command followed by the completion of the transition it starts. *)
Definition completed (c : Command) (s : Slider) : Slider :=
  steps [Call c; TimeoutFire] s.

(** The interval, when it runs, has the period [autoPlayDelay], and it runs
    only with autoplay on and more than one slide. *)
Definition timerInvariant (s : Slider) : Prop :=
  forall p, autoPlayTimer s = Some p ->
    p = autoPlayDelay s /\ autoPlay s = true /\ 1 < slideCount s.

(** What an event does to the interval: nothing, clear it, or start it. *)
Inductive timerEffect (s s' : Slider) : Prop :=
| timer_kept :
    autoPlayTimer s' = autoPlayTimer s ->
    (autoPlay s = true -> autoPlay s' = true) ->
    timerEffect s s'
| timer_cleared :
    autoPlayTimer s' = None -> timerEffect s s'
| timer_started :
    autoPlayTimer s' = Some (autoPlayDelay s) -> autoPlay s' = true ->
    1 < slideCount s -> timerEffect s s'.

(** A page with three slides and the pets shown on it, for the examples. *)
Definition examplePage : Dom :=
  mkDom true [false; false; false] [false; false; false]
    (Some "") (Some "") (Some "") (Some "") (Some "") (Some "").

Definition examplePets : list Pet :=
  [mkPet 7 "Rex" 1 "Labrador"; mkPet 8 "Misty" 4 "Siamese"].

(** The slider of the example page once its initial timeout has fired. *)
Definition exampleSlider : Slider :=
  step TimeoutFire
    (construct (mkOptions (Some examplePets) None None) examplePage).

(** The class [active] sits on the element at index [cur] and on no other
    element of the list. *)
Definition activeOnly (l : list bool) (cur : JS.number) : Prop :=
  forall (j : nat) (b : bool),
    l !! j = Some b -> (b = true <-> JS.Int (Z.of_nat j) = cur).

(** Which of the six content elements the page has. *)
Definition elements (d : Dom) : bool * bool * bool * bool * bool * bool :=
  (bool_decide (is_Some (heroTitle d)), bool_decide (is_Some (heroCTA1 d)),
   bool_decide (is_Some (heroCTA2 d)), bool_decide (is_Some (petCounter d)),
   bool_decide (is_Some (petAge d)), bool_decide (is_Some (petBreed d))).

(** What the page displays once [updateContent] has written [pet] at
    [index]. *)
Definition contentOf (pet : Pet) (index : Z) (d : Dom)
  : option string * option string * option string *
    option string * option string * option string :=
  (assign (heroTitle d) (JS.toUpperCase (pet_name pet)),
   assign (heroCTA1 d) (adoptHref (pet_id pet)),
   assign (heroCTA2 d) (adoptHref (pet_id pet)),
   assign (petCounter d) (counterText index),
   assign (petAge d) (ageText (pet_age pet)),
   assign (petBreed d) (pet_breed pet)).

(** What of the page and of the setting is fixed at construction. *)
Definition samePage (s s' : Slider) : Prop :=
  pets s' = pets s /\ autoPlayDelay s' = autoPlayDelay s /\
  container (dom s') = container (dom s) /\
  length (slides (dom s')) = length (slides (dom s)) /\
  length (dots (dom s')) = length (dots (dom s)) /\
  elements (dom s') = elements (dom s).

(** The events of the browser: listeners and timers, not calls of the
    public methods. *)
Definition browserEvent (e : Event) : Prop :=
  match e with
  | Call _ | CallPlay | CallPause | CallDestroy => False
  | _ => True
  end.

(** The first command of a burst that asks for another index than the
    current one. *)
Definition firstMoving (cs : list Command) (s : Slider) : option Command :=
  List.find
    (fun c => negb (JS.strictEq (commandTarget c s) (currentIndex s))) cs.

(** The icon of the menu button shows the state of the menu: the first path
    is visible exactly when the menu is hidden, the second exactly when it is
    shown. *)
Definition iconMatches (st : MobileMenu.State) : Prop :=
  let h := MobileMenu.hidden (MobileMenu.menu st) in
  MobileMenu.paths st !! 0%nat = Some (MobileMenu.mkClasses (negb h) h) /\
  MobileMenu.paths st !! 1%nat = Some (MobileMenu.mkClasses h (negb h)).

(** The number of calls of a debounced function among some events. *)
Definition invocations {A} (es : list (Debounce.Event A)) : nat :=
  length (List.filter (fun e => match e with
                                | Debounce.Invoke _ => true
                                | Debounce.Expire => false
                                end) es).

(** * Properties *)

(** ** Numerals *)

Lemma String_numeralValue (n : Z) : numeralValue (JS.String_ n) = Some n.
Proof.
  unfold numeralValue, JS.String_.
  rewrite NilZero.isi.
  - simpl. now rewrite DecimalZ.of_to.
  - destruct n; simpl; try discriminate.
    intros [= H]. now apply DecimalPos.Unsigned.to_uint_nonnil in H.
  - destruct n; simpl; try discriminate.
    intros [= H]. now apply DecimalPos.Unsigned.to_uint_nonnil in H.
Qed.

Lemma String_small (n : Z) :
  0 <= n < 10 -> String.length (JS.String_ n) = 1%nat.
Proof.
  intros H. rewrite <- (Z2Nat.id n) by lia.
  assert (Z.to_nat n < 10)%nat as Hk by lia. revert Hk.
  generalize (Z.to_nat n) as k. intros k Hk.
  do 10 (destruct k as [| k]; [reflexivity |]). lia.
Qed.

Lemma uint_length_one (u : Decimal.uint) :
  u <> Decimal.Nil ->
  (String.length (NilEmpty.string_of_uint u) <= 1)%nat ->
  (Pos.of_uint u <= 9)%N.
Proof.
  intros Hnil Hlen.
  destruct u as [|u|u|u|u|u|u|u|u|u|u]; [congruence | ..];
    (destruct u; simpl in Hlen; [vm_compute; discriminate | lia ..]).
Qed.

Lemma String_large (n : Z) :
  10 <= n -> (2 <= String.length (JS.String_ n))%nat.
Proof.
  intros H. destruct n as [|p|p]; try lia.
  unfold JS.String_. simpl.
  pose proof (DecimalPos.Unsigned.to_uint_nonnil p) as Hnil.
  pose proof (DecimalPos.Unsigned.of_to p) as Hof.
  assert (NilZero.string_of_uint (Pos.to_uint p)
          = NilEmpty.string_of_uint (Pos.to_uint p)) as ->
    by (destruct (Pos.to_uint p); [congruence | reflexivity ..]).
  destruct (le_lt_dec (String.length (NilEmpty.string_of_uint (Pos.to_uint p))) 1)
    as [Hle | Hgt]; [| lia].
  apply uint_length_one in Hle; [| assumption].
  rewrite Hof in Hle. lia.
Qed.

(** ** Rendering of the info card *)

Lemma updateContent_dom_found ps index pet d :
  JS.at_ ps index = Some pet ->
  updateContent_dom ps index d
  = mkDom (container d) (slides d) (dots d)
      (assign (heroTitle d) (JS.toUpperCase (pet_name pet)))
      (assign (heroCTA1 d) (adoptHref (pet_id pet)))
      (assign (heroCTA2 d) (adoptHref (pet_id pet)))
      (assign (petCounter d) (counterText index))
      (assign (petAge d) (ageText (pet_age pet)))
      (assign (petBreed d) (pet_breed pet)).
Proof. intros H. unfold updateContent_dom. now rewrite H. Qed.

(** C7: for a non-negative integer age the template puts " year" after the
    number when the age is 1 and " years" when it is 0 or at least 2,
    whatever text the number prints as; for a safe integer that text is the
    decimal numeral of the age, so the age text is "1 year" for 1 and the
    numeral followed by " years" otherwise, and it is the text
    [updateContent] writes into [#petAge]. *)
Theorem age_pluralization (age : Z) (Hage : 0 <= age) :
  (forall numeral,
      (age = 1 -> ageTextOf numeral age = (numeral ++ " year")%string) /\
      (age = 0 \/ 2 <= age ->
       ageTextOf numeral age = (numeral ++ " years")%string)) /\
  (JS.isSafeInteger age ->
   numeralValue (JS.String_ age) = Some age /\
   (age = 1 -> ageText age = "1 year") /\
   (age = 0 \/ 2 <= age ->
    ageText age = (JS.String_ age ++ " years")%string) /\
   (forall ps index pet d old,
       JS.at_ ps index = Some pet -> pet_age pet = age ->
       petAge d = Some old ->
       petAge (updateContent_dom ps index d) = Some (ageText age))).
Proof.
  assert (forall numeral,
             (age = 1 -> ageTextOf numeral age = (numeral ++ " year")%string) /\
             (age = 0 \/ 2 <= age ->
              ageTextOf numeral age = (numeral ++ " years")%string)) as Htext.
  { intros numeral. unfold ageTextOf.
    destruct (Z.eqb_spec age 1) as [-> | Hne]; split; intros H;
      first [reflexivity | lia | contradiction]. }
  split; [exact Htext |].
  intros _. split; [apply String_numeralValue |].
  split; [now intros -> |].
  split; [apply (Htext (JS.String_ age)) |].
  intros ps index pet d old Hpet <- Hold.
  rewrite (updateContent_dom_found _ _ _ _ Hpet). simpl. now rewrite Hold.
Qed.

Lemma age_pluralization_witness :
  0 <= 4 /\ JS.isSafeInteger 4 /\ ageText 4 = "4 years" /\
  ageTextOf "1e+21" (10 ^ 21) = "1e+21 years" /\
  petAge (updateContent_dom examplePets 1 examplePage) = Some "4 years".
Proof.
  assert (JS.isSafeInteger 4) as Hsafe by (unfold JS.isSafeInteger; simpl; lia).
  destruct (age_pluralization 4 ltac:(lia)) as (_ & Hdecimal).
  destruct (Hdecimal Hsafe) as (_ & _ & Hplural & Hdom).
  destruct (age_pluralization (10 ^ 21) ltac:(lia)) as (Hbig & _).
  split; [lia | split; [exact Hsafe | split; [| split]]].
  - apply Hplural. right. lia.
  - apply (Hbig "1e+21"). right. lia.
  - apply (Hdom examplePets 1 (mkPet 8 "Misty" 4 "Siamese") examplePage "");
      reflexivity.
Defined.

(** ** The input router *)

(** C6: the touch listener issues a command exactly when the horizontal
    displacement is, in absolute value, greater than the vertical one and
    greater than 50; it is then the single command [Next] when the touch ended
    left of its start and [Prev] when it ended right of it.  A displacement
    of 60 by 10 gives one command, a horizontal displacement of 30 none. *)
Theorem swipe_threshold (startX startY endX endY : Z) :
  let cmds := swipeCommands startX startY endX endY in
  let far := Z.abs (startX - endX) > Z.abs (startY - endY) /\
             Z.abs (startX - endX) > 50 in
  (cmds <> [] <-> far) /\
  (cmds = [Next] <-> far /\ endX < startX) /\
  (cmds = [Prev] <-> far /\ startX < endX) /\
  (length cmds <= 1)%nat /\
  (Z.abs (startX - endX) = 60 -> Z.abs (startY - endY) = 10 ->
   length cmds = 1%nat) /\
  (Z.abs (startX - endX) = 30 -> cmds = []) /\
  (forall s, listening s = true ->
     steps [TouchStart startX startY; TouchEnd endX endY] s
     = run_all cmds
         (set_touchEnd (endX, endY) (set_touchStart (startX, startY) s))).
Proof.
  cbv zeta.
  repeat match goal with |- _ /\ _ => split end;
    try (intros s H; unfold steps, step, listener; simpl; rewrite H; simpl;
         now rewrite H);
    unfold swipeCommands, JS.abs;
    destruct (Z.gtb_spec (Z.abs (startX - endX)) (Z.abs (startY - endY)));
    destruct (Z.gtb_spec (Z.abs (startX - endX)) 50);
    destruct (Z.gtb_spec (startX - endX) 0); simpl;
    try split; intros; try congruence; try lia.
Qed.

Lemma swipe_threshold_witness :
  swipeCommands 100 100 40 90 = [Next] /\
  swipeCommands 40 100 100 90 = [Prev] /\
  swipeCommands 100 100 70 100 = [].
Proof.
  split; [| split].
  - apply (proj1 (proj2 (swipe_threshold 100 100 40 90))). simpl. lia.
  - apply (proj1 (proj2 (proj2 (swipe_threshold 40 100 100 90)))). simpl. lia.
  - apply (proj1 (proj2 (proj2 (proj2 (proj2 (proj2
             (swipe_threshold 100 100 70 100))))))).
    reflexivity.
Defined.

(** ** Stagger delays *)

Section StaggerProperties.

Context {T : Type} (mul : Z -> T -> T).

Lemma array_set_push (delays : list T) (v : T) :
  Motion.array_set delays (length delays) v = delays ++ [v].
Proof.
  unfold Motion.array_set.
  now rewrite Nat.ltb_irrefl, Nat.eqb_refl.
Qed.

(** The loop writes the entries one after the other, each at the end. *)
Lemma for_loop_fold (f : Z -> T) (k : nat) :
  forall acc,
    fold_left (fun a i => Motion.array_set a i (f (Z.of_nat i)))
      (seq (length acc) k) acc
    = acc ++ map (fun i => f (Z.of_nat i)) (seq (length acc) k).
Proof.
  induction k as [| k IH]; intros acc; simpl.
  - now rewrite app_nil_r.
  - rewrite array_set_push.
    replace (S (length acc)) with (length (acc ++ [f (Z.of_nat (length acc))]))
      by (rewrite length_app; simpl; lia).
    rewrite IH. now rewrite <- app_assoc.
Qed.

Lemma for_loop_map (n : Z) (f : Z -> T) :
  Motion.for_loop n f [] = map (fun i => f (Z.of_nat i)) (seq 0 (Z.to_nat n)).
Proof. unfold Motion.for_loop. apply (for_loop_fold f (Z.to_nat n) []). Qed.

Lemma rev_map_seq (g : nat -> T) (n : nat) :
  rev (map g (seq 0 n)) = map (fun i => g (n - 1 - i)%nat) (seq 0 n).
Proof.
  induction n as [| n IH]; [reflexivity |].
  rewrite seq_S at 1. rewrite map_app, rev_app_distr. simpl.
  rewrite IH, <- seq_shift, map_map. f_equal.
  - f_equal. lia.
  - apply map_ext. intros i. f_equal. lia.
Qed.

Lemma start_delays (n : Z) (d : T) :
  Motion.calculateStaggerDelays mul n d (Motion.FromString "start")
  = map (fun i => mul (Z.of_nat i) d) (seq 0 (Z.to_nat n)).
Proof. unfold Motion.calculateStaggerDelays. apply for_loop_map. Qed.

Lemma end_delays (n : Z) (d : T) :
  Motion.calculateStaggerDelays mul n d (Motion.FromString "end")
  = map (fun i => mul (Z.of_nat (Z.to_nat n - 1 - i)) d) (seq 0 (Z.to_nat n)).
Proof.
  unfold Motion.calculateStaggerDelays. rewrite for_loop_map.
  apply map_ext_in. intros i Hi. apply in_seq in Hi. f_equal. lia.
Qed.

(** C9: the delays counted from the end are the delays counted from the
    start in reverse order; entry [i] of the latter is [i * d], and every
    delay of either list is [k * d] for an integer [k >= 0]. *)
Theorem stagger_end_reverses_start (n : Z) (d : T) :
  let fromStart :=
    Motion.calculateStaggerDelays mul n d (Motion.FromString "start") in
  let fromEnd :=
    Motion.calculateStaggerDelays mul n d (Motion.FromString "end") in
  fromEnd = rev fromStart /\
  fromStart = map (fun i => mul (Z.of_nat i) d) (seq 0 (Z.to_nat n)) /\
  length fromStart = Z.to_nat n /\
  length fromEnd = Z.to_nat n /\
  Forall (fun x => exists k, 0 <= k /\ x = mul k d) fromStart /\
  Forall (fun x => exists k, 0 <= k /\ x = mul k d) fromEnd.
Proof.
  cbv zeta. rewrite end_delays, start_delays.
  repeat split.
  - now rewrite (rev_map_seq (fun i => mul (Z.of_nat i) d)).
  - now rewrite length_map, length_seq.
  - now rewrite length_map, length_seq.
  - apply List.Forall_map, List.Forall_forall. intros i _.
    exists (Z.of_nat i). split; [lia | reflexivity].
  - apply List.Forall_map, List.Forall_forall. intros i _.
    exists (Z.of_nat (Z.to_nat n - 1 - i)). split; [lia | reflexivity].
Qed.

End StaggerProperties.

Example stagger_delays_of_four :
  Motion.calculateStaggerDelays Z.mul 4 100 (Motion.FromString "start")
  = [0; 100; 200; 300] /\
  Motion.calculateStaggerDelays Z.mul 4 100 (Motion.FromString "end")
  = [300; 200; 100; 0] /\
  Motion.calculateStaggerDelays Z.mul 5 100 (Motion.FromString "center")
  = [200; 100; 0; 100; 200] /\
  Motion.calculateStaggerDelays Z.mul 4 100 (Motion.FromNumber 1)
  = [100; 0; 100; 200].
Proof. repeat split. Qed.

(** ** The shape of a transition *)

Lemma set_dom_same (s : Slider) : set_dom (dom s) s = s.
Proof. now destruct s. Qed.

(** An accepted [updateSlide(index)], field by field. *)
Lemma updateSlide_accepted (index : JS.number) (s : Slider) :
  isTransitioning s = false ->
  updateSlide index true s
  = mkSlider (pageAfter index s) (pets s) index true (autoPlay s)
      (autoPlayDelay s) (autoPlayTimer s) (timeouts s ++ [800])
      (timeline s ++ [index]) (listening s) (touchStart s) (touchEnd s).
Proof.
  intros H. unfold updateSlide, pageAfter. rewrite H. simpl.
  destruct index as [i |]; simpl; [| reflexivity].
  now destruct (Z.of_nat (length (pets s)) >? i).
Qed.

(** Strict equality of numbers is equality of integers. *)
Lemma strictEq_true (a b : JS.number) :
  JS.strictEq a b = true <-> exists i, a = JS.Int i /\ b = JS.Int i.
Proof.
  destruct a as [x |], b as [y |]; simpl; split;
    try discriminate; try (intros (i & H1 & H2); discriminate).
  - intros H. apply Z.eqb_eq in H. subst. now exists y.
  - intros (i & [= ->] & [= ->]). apply Z.eqb_refl.
Qed.

Lemma strictEq_Int (x y : Z) :
  JS.strictEq (JS.Int x) (JS.Int y) = (x =? y).
Proof. reflexivity. Qed.


(** A command either returns at once or is an accepted [updateSlide] to its
    target, which then is not strictly equal to the current index. *)
Lemma run_cases (c : Command) (s : Slider) :
  run c s = s \/
  (isTransitioning s = false /\
   JS.strictEq (commandTarget c s) (currentIndex s) = false /\
   run c s = updateSlide (commandTarget c s) true s).
Proof.
  destruct (isTransitioning s) eqn:Hflag.
  - left. destruct c; simpl; unfold nextSlide, prevSlide, goToSlide;
      now rewrite Hflag.
  - assert (forall i, goToSlide i s = s \/
                      (JS.strictEq i (currentIndex s) = false /\
                       goToSlide i s = updateSlide i true s)) as Hgoto.
    { intros i. unfold goToSlide. rewrite Hflag. simpl.
      destruct (JS.strictEq i (currentIndex s)); [now left | now right]. }
    destruct c; simpl; unfold nextSlide, prevSlide; rewrite ?Hflag;
      match goal with |- goToSlide ?i s = s \/ _ =>
        destruct (Hgoto i) as [-> | [Hne ->]]; [now left | now right]
      end.
Qed.

(** While a transition is in flight every command returns at once. *)
Lemma run_while_transitioning (c : Command) (s : Slider) :
  isTransitioning s = true -> run c s = s.
Proof.
  intros H. destruct (run_cases c s) as [Heq | (Hflag & _)];
    [assumption | congruence].
Qed.

Lemma keydownCommands_cases (key : string) :
  keydownCommands key = [] \/ keydownCommands key = [Prev] \/
  keydownCommands key = [Next].
Proof.
  unfold keydownCommands.
  destruct (String.eqb_spec key "ArrowLeft") as [-> | _]; simpl; [now right; left |].
  destruct (String.eqb key "ArrowRight"); [now right; right | now left].
Qed.

Lemma swipeCommands_cases (startX startY endX endY : Z) :
  swipeCommands startX startY endX endY = [] \/
  swipeCommands startX startY endX endY = [Prev] \/
  swipeCommands startX startY endX endY = [Next].
Proof.
  unfold swipeCommands.
  destruct (_ && _); [| now left].
  destruct (_ >? 0); [now right; right | now right; left].
Qed.

Lemma classList_active_length (l : list bool) (i : Z) (b : bool) :
  length (classList_active l i b) = length l.
Proof.
  unfold classList_active. destruct (i <? 0); [reflexivity |].
  apply length_insert.
Qed.

Lemma updateContent_dom_slides ps index d :
  slides (updateContent_dom ps index d) = slides d /\
  dots (updateContent_dom ps index d) = dots d /\
  container (updateContent_dom ps index d) = container d.
Proof. unfold updateContent_dom. now destruct (JS.at_ ps index). Qed.

Lemma classList_at_length (l : list bool) (a : JS.number) (b : bool) :
  length (classList_at l a b) = length l.
Proof. destruct a; [apply classList_active_length | reflexivity]. Qed.

Lemma pageAfter_slides (index : JS.number) (s : Slider) :
  slides (pageAfter index s)
  = classList_at (classList_at (slides (dom s)) (currentIndex s) false)
      index true /\
  dots (pageAfter index s)
  = classList_at (classList_at (dots (dom s)) (currentIndex s) false)
      index true.
Proof.
  unfold pageAfter. destruct index as [i |]; [| now split].
  destruct (_ >? i); [| now split].
  destruct (updateContent_dom_slides (pets s) i
              (toggleActive (currentIndex s) (JS.Int i) (dom s)))
    as (-> & -> & _).
  now split.
Qed.

Lemma sameSetting_refl (s : Slider) : sameSetting s s.
Proof. now repeat split. Qed.

Lemma sameSetting_trans (s1 s2 s3 : Slider) :
  sameSetting s1 s2 -> sameSetting s2 s3 -> sameSetting s1 s3.
Proof. unfold sameSetting. intros (-> & -> & ->) (-> & -> & ->). now repeat split. Qed.

Lemma run_sameSetting (c : Command) (s : Slider) : sameSetting s (run c s).
Proof.
  destruct (run_cases c s) as [-> | (Hflag & _ & ->)];
    [apply sameSetting_refl |].
  rewrite (updateSlide_accepted _ _ Hflag). repeat split.
  unfold slideCount. simpl.
  destruct (pageAfter_slides (commandTarget c s) s) as [-> _].
  now rewrite !classList_at_length.
Qed.

Lemma run_effect (e : Event) (c : Command) (s : Slider) :
  mayIssue e c -> transitionEffect e s (run c s).
Proof.
  intros He. destruct (run_cases c s) as [-> | (Hflag & Hne & ->)].
  - now apply effect_none.
  - rewrite (updateSlide_accepted _ _ Hflag).
    now apply (effect_start e s _ c).
Qed.

(** The timers and the autoplay switch are not touched by a command. *)
Lemma run_timer (c : Command) (s : Slider) :
  autoPlayTimer (run c s) = autoPlayTimer s /\ autoPlay (run c s) = autoPlay s.
Proof.
  destruct (run_cases c s) as [-> | (Hflag & _ & ->)]; [now split |].
  now rewrite (updateSlide_accepted _ _ Hflag).
Qed.

Lemma pauseAutoPlay_fields (s : Slider) :
  pauseAutoPlay s
  = mkSlider (dom s) (pets s) (currentIndex s) (isTransitioning s) (autoPlay s)
      (autoPlayDelay s) None (timeouts s) (timeline s)
      (listening s) (touchStart s) (touchEnd s).
Proof.
  unfold pauseAutoPlay. destruct s as [? ? ? ? ? ? [t |] ? ? ? ? ?]; reflexivity.
Qed.

Lemma startAutoPlay_eq (s : Slider) :
  startAutoPlay s
  = if negb (autoPlay s) || (slideCount s <=? 1) then s
    else mkSlider (dom s) (pets s) (currentIndex s) (isTransitioning s)
           (autoPlay s) (autoPlayDelay s) (Some (autoPlayDelay s))
           (timeouts s) (timeline s) (listening s) (touchStart s) (touchEnd s).
Proof.
  unfold startAutoPlay. destruct (_ || _); [reflexivity |].
  now rewrite pauseAutoPlay_fields.
Qed.

Lemma startAutoPlay_cases (s : Slider) :
  startAutoPlay s = s \/
  (autoPlay s = true /\ 1 < slideCount s /\
   startAutoPlay s
   = mkSlider (dom s) (pets s) (currentIndex s) (isTransitioning s) (autoPlay s)
       (autoPlayDelay s) (Some (autoPlayDelay s)) (timeouts s) (timeline s)
       (listening s) (touchStart s) (touchEnd s)).
Proof.
  unfold startAutoPlay.
  destruct (autoPlay s) eqn:Hauto; simpl; [| now left].
  destruct (Z.leb_spec (slideCount s) 1); [now left | right].
  repeat split; try assumption.
  rewrite pauseAutoPlay_fields. simpl. now rewrite Hauto.
Qed.

(** ** What each event does *)

Lemma transitionEffect_touchEnd (e : Event) (p : Z * Z) (s s' : Slider) :
  transitionEffect e (set_touchEnd p s) s' -> transitionEffect e s s'.
Proof.
  intros H. inversion H as [Hi Hf Ht | c Hc Hf Hf' Ht Hi Hne | d He Ht Hf Hi].
  - now apply effect_none.
  - apply (effect_start e s s' c); assumption.
  - now apply (effect_complete e s s' d).
Qed.

Ltac no_effect := apply effect_none; reflexivity.

Lemma step_effect (e : Event) (s : Slider) : transitionEffect e s (step e s).
Proof.
  destruct e; simpl; unfold listener;
    try (destruct (listening s); [| no_effect]).
  - apply (run_effect ClickPrev Prev). reflexivity.
  - apply (run_effect ClickNext Next). reflexivity.
  - destruct (i <? length (dots (dom s)))%nat; [| no_effect].
    apply (run_effect (ClickDot i) (GoTo (JS.Int (Z.of_nat i)))). reflexivity.
  - destruct (keydownCommands_cases key) as [-> | [-> | ->]]; simpl.
    + no_effect.
    + apply (run_effect (KeyDown key) Prev). now left.
    + apply (run_effect (KeyDown key) Next). now right.
  - rewrite pauseAutoPlay_fields. no_effect.
  - destruct (startAutoPlay_cases s) as [-> | (_ & _ & ->)]; no_effect.
  - no_effect.
  - apply transitionEffect_touchEnd with (p := (x, y)). simpl.
    destruct (swipeCommands_cases (fst (touchStart s)) (snd (touchStart s)) x y)
      as [-> | [-> | ->]]; simpl.
    + no_effect.
    + apply (run_effect (TouchEnd x y) Prev). now left.
    + apply (run_effect (TouchEnd x y) Next). now right.
  - unfold fireInterval. destruct (autoPlayTimer s); [| no_effect].
    apply (run_effect IntervalTick Next). reflexivity.
  - unfold fireTimeout. destruct (timeouts s) as [| d rest] eqn:Hq.
    + apply effect_none; [reflexivity | reflexivity | now symmetry].
    + now apply (effect_complete TimeoutFire s _ d).
  - unfold fireTimelineCall. destruct (timeline s) as [| [i |] rest]; no_effect.
  - apply (run_effect (Call c) c). reflexivity.
  - unfold play.
    destruct (startAutoPlay_cases (set_autoPlay true s)) as [-> | (_ & _ & ->)];
      no_effect.
  - unfold pause. rewrite pauseAutoPlay_fields. no_effect.
  - unfold destroy. rewrite pauseAutoPlay_fields. no_effect.
Qed.

Ltac same_setting := repeat split; reflexivity.

Lemma step_sameSetting (e : Event) (s : Slider) : sameSetting s (step e s).
Proof.
  destruct e; simpl; unfold listener;
    try (destruct (listening s); [| apply sameSetting_refl]).
  - apply (run_sameSetting Prev).
  - apply (run_sameSetting Next).
  - destruct (i <? length (dots (dom s)))%nat; [| apply sameSetting_refl].
    apply (run_sameSetting (GoTo (JS.Int (Z.of_nat i)))).
  - destruct (keydownCommands_cases key) as [-> | [-> | ->]]; simpl.
    + apply sameSetting_refl.
    + apply (run_sameSetting Prev).
    + apply (run_sameSetting Next).
  - rewrite pauseAutoPlay_fields. same_setting.
  - destruct (startAutoPlay_cases s) as [-> | (_ & _ & ->)]; same_setting.
  - same_setting.
  - apply sameSetting_trans with (s2 := set_touchEnd (x, y) s);
      [same_setting |].
    simpl.
    destruct (swipeCommands_cases (fst (touchStart s)) (snd (touchStart s)) x y)
      as [-> | [-> | ->]]; simpl.
    + apply sameSetting_refl.
    + apply (run_sameSetting Prev).
    + apply (run_sameSetting Next).
  - unfold fireInterval. destruct (autoPlayTimer s); [| apply sameSetting_refl].
    apply (run_sameSetting Next).
  - unfold fireTimeout. destruct (timeouts s); same_setting.
  - unfold fireTimelineCall.
    destruct (timeline s) as [| [i |] rest]; [same_setting | | same_setting].
    repeat split. unfold slideCount. simpl.
    now destruct (updateContent_dom_slides (pets s) i (dom s)) as (-> & _).
  - apply run_sameSetting.
  - unfold play.
    destruct (startAutoPlay_cases (set_autoPlay true s)) as [-> | (_ & _ & ->)];
      same_setting.
  - unfold pause. rewrite pauseAutoPlay_fields. same_setting.
  - unfold destroy. rewrite pauseAutoPlay_fields. same_setting.
Qed.

Lemma steps_app (es1 es2 : list Event) (s : Slider) :
  steps (es1 ++ es2) s = steps es2 (steps es1 s).
Proof. apply fold_left_app. Qed.

Lemma steps_sameSetting (es : list Event) :
  forall s, sameSetting s (steps es s).
Proof.
  induction es as [| e es IH]; intros s; [apply sameSetting_refl |].
  apply sameSetting_trans with (s2 := step e s);
    [apply step_sameSetting | apply IH].
Qed.

(** ** Construction *)

Lemma updateSlide_initial (index : JS.number) (s : Slider) :
  updateSlide index false s
  = mkSlider (pageAfter index s) (pets s) index true (autoPlay s)
      (autoPlayDelay s) (autoPlayTimer s) (timeouts s ++ [0])
      (timeline s) (listening s) (touchStart s) (touchEnd s).
Proof.
  unfold updateSlide, pageAfter. rewrite andb_false_r. simpl.
  destruct index as [i |]; simpl; [| reflexivity].
  now destruct (Z.of_nat (length (pets s)) >? i).
Qed.

Lemma init_initialized (s0 : Slider) :
  container (dom s0) = true -> slides (dom s0) <> [] ->
  timeouts s0 = [] -> autoPlayTimer s0 = None ->
  let s := init s0 in
  currentIndex s = JS.Int 0 /\ isTransitioning s = true /\
  timeouts s = [0] /\
  timeline s = timeline s0 /\ listening s = true /\ pets s = pets s0 /\
  autoPlay s = autoPlay s0 /\ autoPlayDelay s = autoPlayDelay s0 /\
  autoPlayTimer s
  = (if autoPlay s0 && (1 <? slideCount s0) then Some (autoPlayDelay s0)
     else None) /\
  slideCount s = slideCount s0.
Proof.
  intros Hc Hs Hq Ht. cbv zeta.
  assert (1 <= slideCount s0) as Hn.
  { unfold slideCount. destruct (slides (dom s0)); [congruence | simpl; lia]. }
  unfold init. rewrite Hc. simpl negb. simpl orb.
  destruct (Z.eqb_spec (slideCount s0) 0); [lia |].
  rewrite updateSlide_initial.
  set (s2 := if autoPlay (setupEventListeners s0) then _ else _).
  assert (pets s2 = pets s0 /\ autoPlay s2 = autoPlay s0 /\
          autoPlayDelay s2 = autoPlayDelay s0 /\
          autoPlayTimer s2
          = (if autoPlay s0 && (1 <? slideCount s0)
             then Some (autoPlayDelay s0) else None) /\
          timeouts s2 = [] /\ timeline s2 = timeline s0 /\
          listening s2 = true /\ slides (dom s2) = slides (dom s0))
    as (Hp & Ha & Hd & Ht2 & Hq2 & Hl & Hli & Hsl).
  { subst s2. unfold setupEventListeners.
    change (autoPlay (set_listening true s0)) with (autoPlay s0).
    destruct (autoPlay s0) eqn:Hauto; [| now repeat split].
    rewrite startAutoPlay_eq.
    change (autoPlay (set_listening true s0)) with (autoPlay s0).
    change (slideCount (set_listening true s0)) with (slideCount s0).
    rewrite Hauto. simpl negb. simpl orb. simpl andb.
    destruct (Z.leb_spec (slideCount s0) 1);
      destruct (Z.ltb_spec 1 (slideCount s0)); try lia;
      simpl; rewrite ?Hauto; now repeat split. }
  simpl. rewrite Hp, Ha, Hd, Ht2, Hq2, Hl, Hli.
  repeat split.
  unfold slideCount. simpl.
  destruct (pageAfter_slides (JS.Int 0) s2) as [-> _].
  now rewrite !classList_at_length, Hsl.
Qed.

(** The slider that the constructor leaves on a page with a container and
    slides: index 0, flag set with its zero-delay timeout pending, listeners
    registered, and the autoplay interval running when autoplay is on and
    there is more than one slide. *)
Lemma construct_initialized (options : Options) (page : Dom) :
  container page = true -> slides page <> [] ->
  let s := construct options page in
  currentIndex s = JS.Int 0 /\ isTransitioning s = true /\
  timeouts s = [0] /\
  timeline s = [] /\ listening s = true /\
  pets s = default [] (opt_pets options) /\
  autoPlay s = autoPlay_of (opt_autoPlay options) /\
  autoPlayDelay s = autoPlayDelay_of (opt_autoPlayDelay options) /\
  autoPlayTimer s
  = (if autoPlay_of (opt_autoPlay options)
        && (1 <? Z.of_nat (length (slides page)))
     then Some (autoPlayDelay_of (opt_autoPlayDelay options)) else None) /\
  slideCount s = Z.of_nat (length (slides page)).
Proof.
  intros Hc Hs. unfold construct.
  exact (init_initialized (mkSlider page _ _ _ _ _ _ _ _ _ _ _) Hc Hs
           eq_refl eq_refl).
Qed.

(** ** One transition at a time *)

Lemma effect_flagInvariant (e : Event) (s s' : Slider) :
  transitionEffect e s s' -> flagInvariant s -> flagInvariant s'.
Proof.
  unfold flagInvariant, inFlight.
  intros [Hi Hf Ht | c Hc Hf Hf' Ht Hi Hne | d He Ht Hf Hi] Hinv.
  - now rewrite Hf, Ht.
  - rewrite Hf', Ht, length_app. rewrite Hf in Hinv. simpl. lia.
  - rewrite Hf. rewrite Ht in Hinv. simpl in Hinv.
    destruct (isTransitioning s); lia.
Qed.

Lemma reachable_flagInvariant (s : Slider) : reachable s -> flagInvariant s.
Proof.
  induction 1 as [options page Hc Hs | e s Hreach IH].
  - destruct (construct_initialized options page Hc Hs)
      as (_ & Hf & Ht & _).
    unfold flagInvariant, inFlight. now rewrite Hf, Ht.
  - exact (effect_flagInvariant e s _ (step_effect e s) IH).
Qed.

(** C1: on an initialized slider, whatever the events so far, at most one
    transition is in flight, and one is in flight exactly while the flag is
    set; a next, prev or goto that arrives while the flag is set leaves the
    whole state as it is; no event other than the pending timeout clears the
    flag or moves the index or starts a transition while it is set, and the
    timeout does clear it. *)
Theorem single_transition_in_flight (s : Slider) (Hs : reachable s) :
  (inFlight s <= 1)%nat /\
  (inFlight s = 1%nat <-> isTransitioning s = true) /\
  (isTransitioning s = true -> forall c, run c s = s) /\
  (isTransitioning s = true ->
   forall e, e <> TimeoutFire ->
     isTransitioning (step e s) = true /\
     currentIndex (step e s) = currentIndex s /\
     inFlight (step e s) = 1%nat) /\
  (isTransitioning s = true ->
   isTransitioning (step TimeoutFire s) = false /\
   currentIndex (step TimeoutFire s) = currentIndex s /\
   inFlight (step TimeoutFire s) = 0%nat).
Proof.
  pose proof (reachable_flagInvariant s Hs) as Hinv.
  unfold flagInvariant in Hinv.
  split; [destruct (isTransitioning s); lia |].
  split; [destruct (isTransitioning s); split; intros; (lia || congruence) |].
  split; [intros Hflag c; now apply run_while_transitioning |].
  split.
  - intros Hflag e He. rewrite Hflag in Hinv.
    destruct (step_effect e s) as [Hi Hf Ht | c Hc Hf | d Hd]; try congruence.
    unfold inFlight in *. now rewrite Hf, Ht, Hi.
  - intros Hflag. rewrite Hflag in Hinv. unfold inFlight in *.
    simpl. unfold fireTimeout.
    destruct (timeouts s) as [| d rest]; simpl in *; [lia |].
    repeat split. lia.
Qed.

Lemma single_transition_in_flight_witness :
  reachable (step (Call Next) exampleSlider) /\
  inFlight (step (Call Next) exampleSlider) = 1%nat /\
  run (GoTo (JS.Int 2)) (step (Call Next) exampleSlider)
  = step (Call Next) exampleSlider.
Proof.
  assert (reachable (step (Call Next) exampleSlider)) as Hreach.
  { apply reach_step. unfold exampleSlider. apply reach_step.
    apply reach_construct; [reflexivity | discriminate]. }
  destruct (single_transition_in_flight _ Hreach) as (_ & Hone & Hnoop & _).
  split; [exact Hreach | split].
  - apply Hone. reflexivity.
  - apply Hnoop. reflexivity.
Defined.

(** ** Next and previous *)

Lemma run_idle (c : Command) (s : Slider) :
  isTransitioning s = false ->
  run c s = if JS.strictEq (commandTarget c s) (currentIndex s) then s
            else updateSlide (commandTarget c s) true s.
Proof.
  intros Hflag.
  destruct c; simpl; unfold nextSlide, prevSlide, goToSlide;
    now rewrite ?Hflag.
Qed.

(** An index that is strictly equal to a target is that target. *)
Lemma strictEq_eq (a b : JS.number) : JS.strictEq a b = true -> b = a.
Proof.
  intros H. apply strictEq_true in H. destruct H as (i & -> & ->).
  reflexivity.
Qed.

(** From an idle slider, a completed command leaves an idle slider at the
    target of the command. *)
Lemma completed_idle (c : Command) (s : Slider) :
  idle s ->
  idle (completed c s) /\
  slideCount (completed c s) = slideCount s /\
  currentIndex (completed c s) = commandTarget c s.
Proof.
  intros [Hflag Hq].
  destruct (steps_sameSetting [Call c; TimeoutFire] s) as (Hcount & _).
  split; [| split; [exact Hcount |]];
    unfold completed, steps; simpl; rewrite (run_idle c s Hflag);
    destruct (JS.strictEq (commandTarget c s) (currentIndex s)) eqn:Heq;
    unfold fireTimeout, idle;
    rewrite ?(updateSlide_accepted _ _ Hflag); simpl; rewrite Hq; simpl;
    auto using strictEq_eq.
Qed.

Lemma next_target (s : Slider) (i : Z) :
  currentIndex s = JS.Int i -> 0 <= i < slideCount s ->
  commandTarget Next s = JS.Int ((i + 1) mod slideCount s) /\
  commandTarget Next s
  = JS.Int (if i + 1 <? slideCount s then i + 1 else 0).
Proof.
  intros Hcur H. simpl. rewrite Hcur. simpl.
  destruct (Z.eqb_spec (slideCount s) 0); [lia |].
  rewrite Z.rem_mod_nonneg by lia.
  split; [reflexivity |]. f_equal.
  destruct (Z.ltb_spec (i + 1) (slideCount s)).
  - apply Z.mod_small. lia.
  - replace (i + 1) with (slideCount s) by lia.
    apply Z_mod_same_full.
Qed.

Lemma prev_target (s : Slider) (i : Z) :
  currentIndex s = JS.Int i ->
  commandTarget Prev s
  = JS.Int (if i =? 0 then slideCount s - 1 else i - 1).
Proof.
  intros Hcur. simpl. rewrite Hcur. simpl.
  now destruct (i =? 0).
Qed.

(** [k] completed [next] commands advance the index by [k] modulo the number
    of slides. *)
Lemma iter_next (k : nat) (s : Slider) (i : Z) :
  idle s -> currentIndex s = JS.Int i -> 0 <= i < slideCount s ->
  let s' := Nat.iter k (completed Next) s in
  idle s' /\ slideCount s' = slideCount s /\
  currentIndex s' = JS.Int ((i + Z.of_nat k) mod slideCount s).
Proof.
  intros Hidle Hcur Hi. cbv zeta.
  induction k as [| k (IHidle & IHcount & IHindex)].
  - simpl. repeat split; try apply Hidle.
    rewrite Z.add_0_r, Z.mod_small by assumption. exact Hcur.
  - rewrite Nat.iter_succ.
    assert (0 <= (i + Z.of_nat k) mod slideCount s
            < slideCount (Nat.iter k (completed Next) s)) as Hrange
      by (rewrite IHcount; apply Z.mod_pos_bound; lia).
    destruct (next_target _ _ IHindex Hrange) as [Hnext _].
    destruct (completed_idle Next _ IHidle) as (Hidle' & Hcount' & Hindex').
    split; [exact Hidle' | split; [congruence |]].
    rewrite Hindex', Hnext, IHcount.
    rewrite Zplus_mod_idemp_l. do 2 f_equal. lia.
Qed.

(** C4: with [N >= 1] slides and the index at a slide, [N] completed [next]
    commands bring the index back where it was, and a completed [prev] undoes
    a completed [next] (and the other way round). *)
Theorem next_wraps_prev_inverts (s : Slider)
    (Hidle : idle s) (Hn : 1 <= slideCount s)
    (Hi : indexInRange (currentIndex s) (slideCount s)) :
  currentIndex (Nat.iter (Z.to_nat (slideCount s)) (completed Next) s)
  = currentIndex s /\
  currentIndex (completed Prev (completed Next s)) = currentIndex s /\
  currentIndex (completed Next (completed Prev s)) = currentIndex s.
Proof.
  destruct (currentIndex s) as [i |] eqn:Hcur; [| contradiction].
  simpl in Hi.
  split; [| split].
  - destruct (iter_next (Z.to_nat (slideCount s)) s i Hidle Hcur Hi)
      as (_ & _ & ->).
    rewrite Z2Nat.id by lia.
    replace (i + slideCount s) with (i + 1 * slideCount s) by lia.
    rewrite Z_mod_plus_full. f_equal. now apply Z.mod_small.
  - destruct (next_target s i Hcur Hi) as [_ Hnext].
    destruct (completed_idle Next s Hidle) as (Hidle1 & Hcount1 & Hindex1).
    rewrite Hnext in Hindex1.
    pose proof (prev_target _ _ Hindex1) as Hprev.
    destruct (completed_idle Prev _ Hidle1) as (_ & _ & ->).
    rewrite Hprev, Hcount1. f_equal.
    destruct (Z.ltb_spec (i + 1) (slideCount s));
      match goal with |- context [?a =? 0] => destruct (Z.eqb_spec a 0) end;
      lia.
  - pose proof (prev_target s i Hcur) as Hprev.
    destruct (completed_idle Prev s Hidle) as (Hidle1 & Hcount1 & Hindex1).
    rewrite Hprev in Hindex1.
    assert (0 <= (if i =? 0 then slideCount s - 1 else i - 1)
            < slideCount (completed Prev s)) as Hi1.
    { rewrite Hcount1. destruct (Z.eqb_spec i 0); lia. }
    destruct (next_target _ _ Hindex1 Hi1) as [_ Hnext].
    destruct (completed_idle Next _ Hidle1) as (_ & _ & ->).
    rewrite Hnext, Hcount1. f_equal.
    destruct (Z.eqb_spec i 0);
      match goal with |- context [?a <? ?b] => destruct (Z.ltb_spec a b) end;
      lia.
Qed.

Lemma next_wraps_prev_inverts_witness :
  idle exampleSlider /\ 1 <= slideCount exampleSlider /\
  indexInRange (currentIndex exampleSlider) (slideCount exampleSlider) /\
  currentIndex (Nat.iter 3 (completed Next) exampleSlider) = JS.Int 0 /\
  currentIndex (completed Prev (completed Next exampleSlider)) = JS.Int 0.
Proof.
  assert (idle exampleSlider) as Hidle by (split; reflexivity).
  assert (1 <= slideCount exampleSlider) as Hn by (vm_compute; discriminate).
  assert (indexInRange (currentIndex exampleSlider) (slideCount exampleSlider))
    as Hi by (vm_compute; split; [discriminate | reflexivity]).
  destruct (next_wraps_prev_inverts exampleSlider Hidle Hn Hi)
    as (Hwrap & Hinv & _).
  repeat split; try assumption; try apply Hidle; try apply Hi.
Defined.

(** ** The index stays at a slide *)

Lemma reachable_steps (es : list Event) :
  forall s, reachable s -> reachable (steps es s).
Proof.
  induction es as [| e es IH]; intros s Hs; [exact Hs |].
  apply IH. now apply reach_step.
Qed.

Lemma effect_index_in_range (e : Event) (s s' : Slider) :
  transitionEffect e s s' -> sameSetting s s' ->
  gotoInBounds (slideCount s) e ->
  indexInRange (currentIndex s) (slideCount s) ->
  indexInRange (currentIndex s') (slideCount s').
Proof.
  intros Heff (Hcount & _) Hbound Hi. rewrite Hcount.
  destruct Heff as [-> _ _ | c Hc _ _ _ -> _ | d _ _ _ ->]; try assumption.
  destruct (currentIndex s) as [i |] eqn:Hcur; [| contradiction].
  simpl in Hi.
  destruct c as [| | index].
  - destruct (next_target s i Hcur Hi) as [-> _]. simpl.
    apply Z.mod_pos_bound. lia.
  - rewrite (prev_target s i Hcur). simpl.
    destruct (Z.eqb_spec i 0); lia.
  - simpl commandTarget.
    destruct e; simpl in Hc; try contradiction;
      try (destruct Hc; discriminate); try discriminate;
      first [injection Hc as -> | rewrite <- Hc in Hbound];
      simpl in Hbound; simpl; first [assumption | lia].
Qed.

Lemma steps_index_in_range (es : list Event) :
  forall s,
    Forall (gotoInBounds (slideCount s)) es ->
    indexInRange (currentIndex s) (slideCount s) ->
    indexInRange (currentIndex (steps es s)) (slideCount (steps es s)).
Proof.
  induction es as [| e es IH]; intros s Hes Hi; [exact Hi |].
  inversion Hes as [| ? ? He Hrest]; subst.
  pose proof (step_sameSetting e s) as Hsame.
  simpl. apply IH.
  - destruct Hsame as (-> & _). exact Hrest.
  - exact (effect_index_in_range e s _ (step_effect e s) Hsame He Hi).
Qed.




(** ** A goto to the current index *)

Lemma toggleActive_NaN (d : Dom) : toggleActive JS.NaN JS.NaN d = d.
Proof. now destruct d. Qed.

Lemma goToSlide_current_number (s : Slider) :
  currentIndex s <> JS.NaN \/ isTransitioning s = true ->
  goToSlide (currentIndex s) s = s.
Proof.
  intros [Hnum | Hflag]; unfold goToSlide.
  - destruct (currentIndex s) as [i |]; [| contradiction].
    simpl. now rewrite Z.eqb_refl, orb_true_r.
  - now rewrite Hflag.
Qed.

(** C5, as the code has it: [goToSlide(currentIndex)] returns at once and
    leaves the whole state (index, flag, timers, page) as it was, in every
    state whose current index is a number other than [NaN], and in every
    state with a transition in flight.  Every state that an initialized
    slider reaches by events whose goto indices are indices of slides is such
    a state.  With the current index [NaN] and no transition in flight, the
    test [index === this.currentIndex] is false and the call starts a
    transition: the flag is set, the completion timeout and the timeline call
    are queued; the index and the page stay as they were. *)
Theorem goto_current_is_noop (s : Slider) :
  (currentIndex s <> JS.NaN \/ isTransitioning s = true ->
   goToSlide (currentIndex s) s = s /\
   step (Call (GoTo (currentIndex s))) s = s /\
   inFlight (goToSlide (currentIndex s) s) = inFlight s /\
   isTransitioning (goToSlide (currentIndex s) s) = isTransitioning s /\
   content (dom (goToSlide (currentIndex s) s)) = content (dom s)) /\
  (forall options page es,
      container page = true -> slides page <> [] ->
      Forall (gotoInBounds (Z.of_nat (length (slides page)))) es ->
      s = steps es (construct options page) ->
      currentIndex s <> JS.NaN /\ goToSlide (currentIndex s) s = s) /\
  (currentIndex s = JS.NaN -> isTransitioning s = false ->
   JS.strictEq (currentIndex s) (currentIndex s) = false /\
   goToSlide (currentIndex s) s = updateSlide JS.NaN true s /\
   isTransitioning (goToSlide (currentIndex s) s) = true /\
   inFlight (goToSlide (currentIndex s) s) = S (inFlight s) /\
   timeouts (goToSlide (currentIndex s) s) = timeouts s ++ [800] /\
   timeline (goToSlide (currentIndex s) s) = timeline s ++ [JS.NaN] /\
   currentIndex (goToSlide (currentIndex s) s) = JS.NaN /\
   dom (goToSlide (currentIndex s) s) = dom s).
Proof.
  split; [| split].
  - intros H. pose proof (goToSlide_current_number s H) as Hgo.
    simpl. now rewrite !Hgo.
  - intros options page es Hc Hs Hes ->.
    destruct (construct_initialized options page Hc Hs)
      as (Hi0 & _ & _ & _ & _ & _ & _ & _ & _ & Hn0).
    assert (indexInRange (currentIndex (steps es (construct options page)))
              (slideCount (steps es (construct options page)))) as Hrange.
    { apply steps_index_in_range.
      - now rewrite Hn0.
      - rewrite Hi0, Hn0. simpl.
        destruct (slides page); [congruence | simpl; lia]. }
    assert (currentIndex (steps es (construct options page)) <> JS.NaN)
      as Hnum.
    { intros Hnan. rewrite Hnan in Hrange. exact Hrange. }
    split; [exact Hnum |].
    apply goToSlide_current_number. now left.
  - intros Hnan Hflag. rewrite Hnan.
    assert (goToSlide JS.NaN s = updateSlide JS.NaN true s) as Hgo.
    { unfold goToSlide. now rewrite Hflag. }
    rewrite Hgo, (updateSlide_accepted _ _ Hflag). unfold inFlight. simpl.
    unfold pageAfter. rewrite Hnan, toggleActive_NaN, length_app. simpl.
    repeat split. lia.
Qed.

Lemma goto_current_is_noop_witness :
  (currentIndex exampleSlider <> JS.NaN \/
   isTransitioning exampleSlider = true) /\
  goToSlide (currentIndex exampleSlider) exampleSlider = exampleSlider /\
  currentIndex (step (Call (GoTo JS.NaN)) exampleSlider) = JS.NaN /\
  isTransitioning (step (Call (GoTo JS.NaN)) exampleSlider) = true /\
  goToSlide JS.NaN (step (Call (GoTo JS.NaN)) exampleSlider)
  = step (Call (GoTo JS.NaN)) exampleSlider.
Proof.
  assert (currentIndex exampleSlider <> JS.NaN \/
          isTransitioning exampleSlider = true) as Hnum
    by (left; vm_compute; discriminate).
  split; [exact Hnum |].
  split; [exact (proj1 (proj1 (goto_current_is_noop exampleSlider) Hnum)) |].
  split; [reflexivity | split; [reflexivity |]].
  exact (proj1 (proj1 (goto_current_is_noop
                         (step (Call (GoTo JS.NaN)) exampleSlider))
                  (or_intror eq_refl))).
Defined.

(** C5 as stated fails where the current index is [NaN].  The index becomes
    [NaN] by [goToSlide(NaN)], which is accepted like any other index, and by
    [nextSlide()] on a slider without slides, where the target is [1 % 0].
    Once the transition is over, [goToSlide(currentIndex)] starts another
    one. *)
Lemma goto_current_at_NaN_counterexample :
  let s := steps [Call (GoTo JS.NaN); TimeoutFire] exampleSlider in
  let t := steps [Call Next; TimeoutFire]
             (construct (mkOptions None None None)
                (mkDom true [] [] None None None None None None)) in
  reachable s /\
  currentIndex s = JS.NaN /\ isTransitioning s = false /\ inFlight s = 0%nat /\
  goToSlide (currentIndex s) s <> s /\
  isTransitioning (goToSlide (currentIndex s) s) = true /\
  inFlight (goToSlide (currentIndex s) s) = 1%nat /\
  currentIndex t = JS.NaN /\ isTransitioning t = false /\
  isTransitioning (goToSlide (currentIndex t) t) = true.
Proof.
  cbv zeta. split.
  { apply reachable_steps. unfold exampleSlider. apply reach_step.
    apply reach_construct; [reflexivity | discriminate]. }
  split; [reflexivity | split; [reflexivity | split; [reflexivity |]]].
  split.
  { intros H. apply (f_equal isTransitioning) in H. vm_compute in H.
    discriminate. }
  repeat split.
Qed.

(** ** The autoplay interval *)

Ltac timer_kept := apply timer_kept; [reflexivity | trivial].

Lemma run_timerEffect (c : Command) (s : Slider) : timerEffect s (run c s).
Proof.
  destruct (run_timer c s) as [Ht Ha]. apply timer_kept; [exact Ht |].
  now rewrite Ha.
Qed.

Lemma startAutoPlay_timerEffect (s : Slider) : timerEffect s (startAutoPlay s).
Proof.
  destruct (startAutoPlay_cases s) as [-> | (Hauto & Hn & ->)];
    [timer_kept | now apply timer_started].
Qed.

Lemma step_timerEffect (e : Event) (s : Slider) : timerEffect s (step e s).
Proof.
  destruct e; simpl; unfold listener;
    try (destruct (listening s); [| timer_kept]).
  - apply (run_timerEffect Prev).
  - apply (run_timerEffect Next).
  - destruct (i <? length (dots (dom s)))%nat; [| timer_kept].
    apply (run_timerEffect (GoTo (JS.Int (Z.of_nat i)))).
  - destruct (keydownCommands_cases key) as [-> | [-> | ->]]; simpl;
      [timer_kept | apply (run_timerEffect Prev) | apply (run_timerEffect Next)].
  - apply timer_cleared. now rewrite pauseAutoPlay_fields.
  - apply startAutoPlay_timerEffect.
  - timer_kept.
  - destruct (swipeCommands_cases (fst (touchStart s)) (snd (touchStart s)) x y)
      as [-> | [-> | ->]]; simpl; [timer_kept | |].
    + destruct (run_timer Prev (set_touchEnd (x, y) s)) as [Ht Ha].
      apply timer_kept;
        [exact Ht | intros H; etransitivity; [exact Ha | exact H]].
    + destruct (run_timer Next (set_touchEnd (x, y) s)) as [Ht Ha].
      apply timer_kept;
        [exact Ht | intros H; etransitivity; [exact Ha | exact H]].
  - unfold fireInterval. destruct (autoPlayTimer s); [| timer_kept].
    apply (run_timerEffect Next).
  - unfold fireTimeout. destruct (timeouts s); timer_kept.
  - unfold fireTimelineCall. destruct (timeline s) as [| [i |] rest]; timer_kept.
  - apply run_timerEffect.
  - unfold play.
    destruct (startAutoPlay_cases (set_autoPlay true s))
      as [-> | (_ & Hn & ->)]; [timer_kept | now apply timer_started].
  - apply timer_cleared. unfold pause. now rewrite pauseAutoPlay_fields.
  - apply timer_cleared. unfold destroy. now rewrite pauseAutoPlay_fields.
Qed.

Lemma effect_timerInvariant (s s' : Slider) :
  timerEffect s s' -> sameSetting s s' -> timerInvariant s -> timerInvariant s'.
Proof.
  unfold timerInvariant.
  intros [Ht Ha | Ht | Ht Ha Hn] (Hcount & _ & Hdelay) Hinv p Hp;
    rewrite Hcount, Hdelay.
  - rewrite Ht in Hp. destruct (Hinv p Hp) as (-> & Hauto & Hlt).
    repeat split; auto.
  - congruence.
  - rewrite Ht in Hp. injection Hp as <-. now repeat split.
Qed.

Lemma steps_timerInvariant (es : list Event) :
  forall s, timerInvariant s -> timerInvariant (steps es s).
Proof.
  induction es as [| e es IH]; intros s Hinv; [exact Hinv |].
  simpl. apply IH.
  exact (effect_timerInvariant s _ (step_timerEffect e s)
           (step_sameSetting e s) Hinv).
Qed.

(** C3, as the code has it: without an [autoPlayDelay] option the delay is
    5000 ms (6000 ms is what the page's own initializer passes), and it never
    changes; whenever the interval runs, its period is that delay, autoplay is
    on, there is more than one slide, and its tick is a [nextSlide]; on a
    page with more than one slide and autoplay on, the constructor starts
    it. *)
Theorem autoplay_period
    (options : Options) (page : Dom) (es : list Event)
    (Hc : container page = true) (Hs : slides page <> []) :
  let s0 := construct options page in
  let s := steps es s0 in
  autoPlayDelay s = autoPlayDelay_of (opt_autoPlayDelay options) /\
  (opt_autoPlayDelay options = None -> autoPlayDelay s = 5000) /\
  (forall petsData, options = pageOptions petsData ->
   autoPlayDelay s = 6000) /\
  (forall p, autoPlayTimer s = Some p ->
     p = autoPlayDelay s /\ autoPlay s = true /\ 1 < slideCount s /\
     step IntervalTick s = nextSlide s) /\
  (autoPlayTimer s = None -> step IntervalTick s = s) /\
  (autoPlay_of (opt_autoPlay options) = true ->
   1 < Z.of_nat (length (slides page)) ->
   autoPlayTimer s0 = Some (autoPlayDelay s0)).
Proof.
  cbv zeta.
  destruct (construct_initialized options page Hc Hs)
    as (_ & _ & _ & _ & _ & _ & Ha0 & Hd0 & Ht0 & Hn0).
  destruct (steps_sameSetting es (construct options page)) as (_ & _ & Hd).
  assert (timerInvariant (construct options page)) as Hinv0.
  { intros p Hp. rewrite Ht0 in Hp. rewrite Ha0, Hd0, Hn0.
    destruct (autoPlay_of (opt_autoPlay options)); [| discriminate].
    destruct (Z.ltb_spec 1 (Z.of_nat (length (slides page))));
      [| discriminate].
    injection Hp as <-. now repeat split. }
  pose proof (steps_timerInvariant es _ Hinv0) as Hinv.
  rewrite Hd, Hd0.
  split; [reflexivity |].
  split; [now intros -> |].
  split; [now intros petsData -> |].
  split; [| split].
  - intros p Hp. destruct (Hinv p Hp) as (-> & Hauto & Hlt).
    rewrite Hd, Hd0. repeat split; try assumption.
    simpl. unfold fireInterval. now rewrite Hp.
  - intros Hp. simpl. unfold fireInterval. now rewrite Hp.
  - intros Hauto Hlt. rewrite Ht0, Hauto.
    now destruct (Z.ltb_spec 1 (Z.of_nat (length (slides page)))); [| lia].
Qed.

Lemma autoplay_period_witness :
  autoPlayDelay
    (steps [TimeoutFire; MouseEnter; MouseLeave]
       (construct (mkOptions (Some examplePets) None None) examplePage))
  = 5000 /\
  autoPlayTimer
    (construct (mkOptions (Some examplePets) None None) examplePage)
  = Some 5000 /\
  autoPlayDelay (construct (pageOptions (Some examplePets)) examplePage)
  = 6000.
Proof.
  split; [| split].
  - apply (proj1 (proj2 (autoplay_period
             (mkOptions (Some examplePets) None None) examplePage
             [TimeoutFire; MouseEnter; MouseLeave]
             eq_refl ltac:(discriminate)))).
    reflexivity.
  - apply (proj2 (proj2 (proj2 (proj2 (proj2 (autoplay_period
             (mkOptions (Some examplePets) None None) examplePage []
             eq_refl ltac:(discriminate))))))).
    + reflexivity.
    + simpl. lia.
  - apply (proj1 (proj2 (proj2 (autoplay_period
             (pageOptions (Some examplePets)) examplePage []
             eq_refl ltac:(discriminate)))) (Some examplePets)).
    reflexivity.
Defined.

(** C3 as stated fails: constructed without an [autoPlayDelay] option, the
    slider has a delay of 5000 ms and an interval of that period, not
    6000 ms. *)
Lemma default_delay_counterexample :
  opt_autoPlayDelay (mkOptions (Some examplePets) None None) = None /\
  autoPlayDelay
    (construct (mkOptions (Some examplePets) None None) examplePage) = 5000 /\
  autoPlayTimer
    (construct (mkOptions (Some examplePets) None None) examplePage)
  = Some 5000 /\
  autoPlayDelay
    (construct (mkOptions (Some examplePets) None None) examplePage) <> 6000.
Proof. repeat split. discriminate. Qed.

(** ** Fewer pets than slides *)

Lemma at_beyond {A} (l : list A) (index : Z) :
  Z.of_nat (length l) <= index -> JS.at_ l index = None.
Proof.
  intros H. unfold JS.at_.
  destruct (Z.ltb_spec index 0); [reflexivity |].
  apply lookup_ge_None. lia.
Qed.

Lemma at_classList_active_same (l : list bool) (i : Z) (b : bool) :
  0 <= i < Z.of_nat (length l) ->
  JS.at_ (classList_active l i b) i = Some b.
Proof.
  intros H. unfold JS.at_, classList_active.
  destruct (Z.ltb_spec i 0); [lia |].
  apply list_lookup_insert_eq. lia.
Qed.

Lemma at_classList_active_other (l : list bool) (i j : Z) (b : bool) :
  i <> j -> JS.at_ (classList_active l i b) j = JS.at_ l j.
Proof.
  intros H. unfold JS.at_, classList_active.
  destruct (Z.ltb_spec j 0); [reflexivity |].
  destruct (Z.ltb_spec i 0); [reflexivity |].
  apply list_lookup_insert_ne. lia.
Qed.

(** [updateContent] for an index that has no pet returns at [if (!pet)]. *)
Lemma updateContent_beyond (index : Z) (s : Slider) :
  Z.of_nat (length (pets s)) <= index -> updateContent (JS.Int index) s = s.
Proof.
  intros H. unfold updateContent, updateContent_dom.
  rewrite (at_beyond _ _ H). apply set_dom_same.
Qed.

(** C10, as the code has it: a transition to an index at or beyond the end
    of the pets array is accepted like any other: the index is committed, the
    flag set, [active] moves from the previous slide and dot to the new ones.
    The guard of [updateSlide] skips its call of [updateContent]; the call
    that [animateSlideTransition] queues on the timeline is made, finds no
    pet and returns; so the title, the two links, the counter, the age and
    the breed stay as they were, through the whole transition. *)
Theorem transition_beyond_pets (s : Slider) (index : Z)
    (Hflag : isTransitioning s = false)
    (Hne : JS.Int index <> currentIndex s)
    (Hbeyond : Z.of_nat (length (pets s)) <= index) :
  let s' := goToSlide (JS.Int index) s in
  currentIndex s' = JS.Int index /\
  isTransitioning s' = true /\
  JS.gt (Z.of_nat (length (pets s))) (JS.Int index) = false /\
  slides (dom s')
  = classList_at (classList_at (slides (dom s)) (currentIndex s) false)
      (JS.Int index) true /\
  dots (dom s')
  = classList_at (classList_at (dots (dom s)) (currentIndex s) false)
      (JS.Int index) true /\
  (index < slideCount s -> JS.at_ (slides (dom s')) index = Some true) /\
  (forall cur, currentIndex s = JS.Int cur -> 0 <= cur < slideCount s ->
   JS.at_ (slides (dom s')) cur = Some false) /\
  content (dom s') = content (dom s) /\
  timeline s' = timeline s ++ [JS.Int index] /\
  (forall x, pets x = pets s -> updateContent (JS.Int index) x = x) /\
  (timeline s = [] ->
   content
     (dom (steps [Call (GoTo (JS.Int index)); TimelineCall; TimeoutFire] s))
   = content (dom s) /\
   currentIndex
     (steps [Call (GoTo (JS.Int index)); TimelineCall; TimeoutFire] s)
   = JS.Int index).
Proof.
  cbv zeta.
  assert (goToSlide (JS.Int index) s
          = mkSlider (toggleActive (currentIndex s) (JS.Int index) (dom s))
              (pets s) (JS.Int index) true (autoPlay s) (autoPlayDelay s)
              (autoPlayTimer s) (timeouts s ++ [800])
              (timeline s ++ [JS.Int index]) (listening s)
              (touchStart s) (touchEnd s)) as Hgo.
  { change (goToSlide (JS.Int index) s) with (run (GoTo (JS.Int index)) s).
    rewrite (run_idle _ _ Hflag). simpl commandTarget.
    assert (JS.strictEq (JS.Int index) (currentIndex s) = false) as ->.
    { destruct (currentIndex s) as [cur |]; [| reflexivity].
      simpl. apply Z.eqb_neq. congruence. }
    rewrite (updateSlide_accepted _ _ Hflag). unfold pageAfter.
    now destruct (Z.gtb_spec (Z.of_nat (length (pets s))) index); [lia |]. }
  assert (0 <= index) as Hpos by lia.
  split; [now rewrite Hgo |].
  split; [now rewrite Hgo |].
  split; [simpl; destruct (Z.gtb_spec (Z.of_nat (length (pets s))) index);
          [lia | reflexivity] |].
  split; [now rewrite Hgo |].
  split; [now rewrite Hgo |].
  split.
  { intros Hlt. rewrite Hgo. simpl. apply at_classList_active_same.
    rewrite classList_at_length. unfold slideCount in Hlt. lia. }
  split.
  { intros cur Hcur Hrange. rewrite Hgo. simpl. rewrite Hcur. simpl.
    rewrite at_classList_active_other by congruence.
    now apply at_classList_active_same. }
  split; [now rewrite Hgo |].
  split; [now rewrite Hgo |].
  split.
  { intros x Hx. apply updateContent_beyond. now rewrite Hx. }
  intros Htl. unfold steps. simpl. rewrite Hgo.
  unfold fireTimelineCall. simpl. rewrite Htl. simpl.
  unfold updateContent_dom. simpl.
  rewrite (at_beyond _ _ Hbeyond). simpl.
  unfold fireTimeout. simpl.
  destruct (timeouts s); simpl; now split.
Qed.

Lemma transition_beyond_pets_witness :
  isTransitioning exampleSlider = false /\
  JS.Int 2 <> currentIndex exampleSlider /\
  Z.of_nat (length (pets exampleSlider)) <= 2 /\
  currentIndex (goToSlide (JS.Int 2) exampleSlider) = JS.Int 2 /\
  slides (dom (goToSlide (JS.Int 2) exampleSlider)) = [false; false; true] /\
  content (dom (goToSlide (JS.Int 2) exampleSlider))
  = content (dom exampleSlider).
Proof.
  assert (isTransitioning exampleSlider = false) as Hflag by reflexivity.
  assert (JS.Int 2 <> currentIndex exampleSlider) as Hne
    by (vm_compute; discriminate).
  assert (Z.of_nat (length (pets exampleSlider)) <= 2) as Hbeyond
    by (vm_compute; discriminate).
  destruct (transition_beyond_pets exampleSlider 2 Hflag Hne Hbeyond)
    as (Hi & _ & _ & Hslides & _ & _ & _ & Hcontent & _).
  repeat split; try assumption.
Defined.

(** C10 as stated fails in its last words: on the example, with two pets
    and three slides, the transition to index 2 queues a call of
    [updateContent(2)] on the timeline, and the timeline makes that call. *)
Lemma updateContent_is_invoked_counterexample :
  Z.of_nat (length (pets exampleSlider)) <= 2 /\
  isTransitioning exampleSlider = false /\
  timeline exampleSlider = [] /\
  timeline (goToSlide (JS.Int 2) exampleSlider) = [JS.Int 2] /\
  step TimelineCall (goToSlide (JS.Int 2) exampleSlider)
  = updateContent (JS.Int 2)
      (set_timeline [] (goToSlide (JS.Int 2) exampleSlider)).
Proof. repeat split. vm_compute. discriminate. Qed.

(** ** The counter *)

(** C8, as the code has it: for an index [i >= 0] whose counter value
    [i + 1] is a safe integer, the counter text is the decimal numeral of
    [i + 1] with one leading zero when it has a single digit, so it always
    has at least two characters: index 0 gives "01" and index 9 gives "10".
    [updateContent(i)] writes this text into [#petCounter] when the pets
    array has a pet at [i].  When it has none (the pets array is shorter than
    the slide collection), the counter is not written: after a whole
    transition to slide [i] it shows what it showed before. *)
Theorem counter_two_digits (i : Z)
    (Hi : 0 <= i) (Hsafe : JS.isSafeInteger (i + 1)) :
  counterText i
  = (if i + 1 <? 10 then String "0" (JS.String_ (i + 1))
     else JS.String_ (i + 1)) /\
  (2 <= String.length (counterText i))%nat /\
  numeralValue (counterText i) = Some (i + 1) /\
  counterText 0 = "01" /\
  counterText 9 = "10" /\
  (forall ps pet d old,
      JS.at_ ps i = Some pet -> petCounter d = Some old ->
      petCounter (updateContent_dom ps i d) = Some (counterText i)) /\
  (forall ps d,
      Z.of_nat (length ps) <= i ->
      petCounter (updateContent_dom ps i d) = petCounter d) /\
  (forall s,
      isTransitioning s = false -> JS.Int i <> currentIndex s ->
      timeline s = [] ->
      petCounter
        (dom (steps [Call (GoTo (JS.Int i)); TimelineCall; TimeoutFire] s))
      = match JS.at_ (pets s) i with
        | Some _ => assign (petCounter (dom s)) (counterText i)
        | None => petCounter (dom s)
        end).
Proof.
  clear Hsafe.
  assert (counterText i
          = (if i + 1 <? 10 then String "0" (JS.String_ (i + 1))
             else JS.String_ (i + 1))) as Hform.
  { unfold counterText, JS.padStart.
    destruct (Z.ltb_spec (i + 1) 10) as [Hlt | Hge].
    - rewrite (String_small (i + 1)) by lia. reflexivity.
    - pose proof (String_large (i + 1) Hge) as Hlen.
      destruct (Nat.leb_spec 2 (String.length (JS.String_ (i + 1))));
        [reflexivity | lia]. }
  split; [exact Hform |].
  split; [| split].
  - rewrite Hform. destruct (Z.ltb_spec (i + 1) 10) as [Hlt | Hge].
    + simpl. rewrite (String_small (i + 1)) by lia. lia.
    + now apply String_large.
  - rewrite Hform. destruct (Z.ltb_spec (i + 1) 10) as [Hlt | Hge].
    + rewrite <- (Z2Nat.id i) in * by lia.
      assert (Z.to_nat i < 9)%nat as Hk by lia. revert Hk.
      generalize (Z.to_nat i) as k. intros k Hk.
      do 9 (destruct k as [| k]; [reflexivity |]). lia.
    + apply String_numeralValue.
  - split; [reflexivity |]. split; [reflexivity |].
    split; [| split].
    + intros ps pet d old Hpet Hold.
      rewrite (updateContent_dom_found _ _ _ _ Hpet). simpl. now rewrite Hold.
    + intros ps d Hlen. unfold updateContent_dom.
      now rewrite (at_beyond _ _ Hlen).
    + intros s Hflag Hne Htl. unfold steps. simpl.
      change (goToSlide (JS.Int i) s) with (run (GoTo (JS.Int i)) s).
      rewrite (run_idle _ _ Hflag). simpl commandTarget.
      assert (JS.strictEq (JS.Int i) (currentIndex s) = false) as ->.
      { destruct (currentIndex s) as [cur |]; [| reflexivity].
        simpl. apply Z.eqb_neq. congruence. }
      rewrite (updateSlide_accepted _ _ Hflag).
      unfold fireTimelineCall. simpl. rewrite Htl. simpl.
      assert (petCounter (updateContent_dom (pets s) i (pageAfter (JS.Int i) s))
              = match JS.at_ (pets s) i with
                | Some _ => assign (petCounter (dom s)) (counterText i)
                | None => petCounter (dom s)
                end) as Hcounter.
      { unfold pageAfter, updateContent_dom.
        destruct (JS.at_ (pets s) i);
          destruct (Z.of_nat (length (pets s)) >? i); simpl;
          now destruct (petCounter (dom s)). }
      unfold fireTimeout. simpl.
      destruct (timeouts s); simpl; exact Hcounter.
Qed.

Lemma counter_two_digits_witness :
  0 <= 1 /\ JS.isSafeInteger (1 + 1) /\ counterText 1 = "02" /\
  petCounter (updateContent_dom examplePets 1 examplePage) = Some "02" /\
  petCounter
    (dom (steps [Call (GoTo (JS.Int 1)); TimelineCall; TimeoutFire]
            exampleSlider)) = Some "02".
Proof.
  assert (JS.isSafeInteger (1 + 1)) as Hsafe
    by (unfold JS.isSafeInteger; lia).
  destruct (counter_two_digits 1 ltac:(lia) Hsafe)
    as (Hform & _ & _ & _ & _ & Hdom & _ & Hgo).
  split; [lia | split; [exact Hsafe | split; [exact Hform | split]]].
  - apply (Hdom examplePets (mkPet 8 "Misty" 4 "Siamese") examplePage "");
      reflexivity.
  - apply (Hgo exampleSlider); [reflexivity | discriminate | reflexivity].
Defined.

(** C8 as stated fails for a slide without a pet: on the example, with
    three slides and two pets, index 2 is the index of a slide and its counter
    text is "03", but after the transition to slide 2 the counter still reads
    "01". *)
Lemma counter_not_rendered_counterexample :
  slideCount exampleSlider = 3 /\
  length (pets exampleSlider) = 2%nat /\
  indexInRange (JS.Int 2) (slideCount exampleSlider) /\
  counterText 2 = "03" /\
  petCounter (dom exampleSlider) = Some "01" /\
  currentIndex
    (steps [Call (GoTo (JS.Int 2)); TimelineCall; TimeoutFire] exampleSlider)
  = JS.Int 2 /\
  petCounter
    (dom (steps [Call (GoTo (JS.Int 2)); TimelineCall; TimeoutFire]
            exampleSlider)) = Some "01".
Proof. repeat split. vm_compute. discriminate. Qed.

(** * Further properties of the slider *)

(** ** A proof principle for events *)

(** A property kept by each method that an event runs is kept by the event. *)
Lemma step_preserves (P : Slider -> Prop) (e : Event) :
  (forall c s, mayIssue e c -> P s -> P (run c s)) ->
  (forall p s, P s -> P (set_touchStart p s)) ->
  (forall p s, P s -> P (set_touchEnd p s)) ->
  (forall s, P s -> P (pauseAutoPlay s)) ->
  (forall s, P s -> P (startAutoPlay s)) ->
  (forall s, P s -> P (fireTimeout s)) ->
  (forall s, P s -> P (fireTimelineCall s)) ->
  (e = CallPlay -> forall s, P s -> P (set_autoPlay true s)) ->
  (e = CallPause -> forall s, P s -> P (set_autoPlay false s)) ->
  forall s, P s -> P (step e s).
Proof.
  intros Hrun HtS HtE Hpause Hstart Hout Hline Hplay Hoff s HP.
  destruct e; simpl; unfold listener;
    try (destruct (listening s); [| exact HP]).
  - apply (Hrun Prev); [reflexivity | exact HP].
  - apply (Hrun Next); [reflexivity | exact HP].
  - destruct (i <? length (dots (dom s)))%nat; [| exact HP].
    apply (Hrun (GoTo (JS.Int (Z.of_nat i)))); [reflexivity | exact HP].
  - destruct (keydownCommands_cases key) as [-> | [-> | ->]]; simpl;
      [exact HP | apply (Hrun Prev) | apply (Hrun Next)];
      simpl; auto.
  - now apply Hpause.
  - now apply Hstart.
  - now apply HtS.
  - destruct (swipeCommands_cases (fst (touchStart s)) (snd (touchStart s)) x y)
      as [-> | [-> | ->]]; simpl;
      [now apply HtE | apply (Hrun Prev) | apply (Hrun Next)];
      simpl; auto.
  - unfold fireInterval. destruct (autoPlayTimer s); [| exact HP].
    apply (Hrun Next); [reflexivity | exact HP].
  - now apply Hout.
  - now apply Hline.
  - apply (Hrun c); [reflexivity | exact HP].
  - unfold play. apply Hstart. now apply Hplay.
  - unfold pause. apply Hpause. now apply Hoff.
  - unfold destroy. now apply Hpause.
Qed.

(** ** A burst of commands *)

Lemma run_all_transitioning (cs : list Command) (s : Slider) :
  isTransitioning s = true -> run_all cs s = s.
Proof.
  intros Hflag. induction cs as [| c cs IH]; [reflexivity |].
  unfold run_all in *. simpl.
  now rewrite (run_while_transitioning c s Hflag).
Qed.

(** X1: of a burst of commands that arrive with no completion in between,
    only the first one that asks for an index not strictly equal to the
    current one has an effect: the burst is that one accepted [updateSlide],
    or nothing when there is no such command or when a transition was already
    in flight.  (The current index is a safe integer or [NaN], so that the
    targets of [next] and [prev] are computed exactly.) *)
Theorem burst_first_accepted (cs : list Command) (s : Slider)
    (Hexact : JS.exact (currentIndex s)) :
  (isTransitioning s = true -> run_all cs s = s) /\
  (isTransitioning s = false ->
   run_all cs s
   = match firstMoving cs s with
     | Some c => updateSlide (commandTarget c s) true s
     | None => s
     end).
Proof.
  split; [apply run_all_transitioning |].
  intros Hflag. induction cs as [| c cs IH]; [reflexivity |].
  unfold firstMoving in *. simpl find.
  change (run_all (c :: cs) s) with (run_all cs (run c s)).
  rewrite (run_idle c s Hflag).
  destruct (JS.strictEq (commandTarget c s) (currentIndex s)); simpl negb;
    cbv iota; [exact IH |].
  apply run_all_transitioning.
  now rewrite (updateSlide_accepted _ _ Hflag).
Qed.

Lemma burst_first_accepted_witness :
  JS.exact (currentIndex exampleSlider) /\
  isTransitioning exampleSlider = false /\
  run_all [GoTo (JS.Int 0); Next; Next; Prev; GoTo (JS.Int 2)] exampleSlider
  = updateSlide (JS.Int 1) true exampleSlider /\
  currentIndex
    (run_all [GoTo (JS.Int 0); Next; Next; Prev; GoTo (JS.Int 2)]
       exampleSlider)
  = JS.Int 1.
Proof.
  assert (JS.exact (currentIndex exampleSlider)) as Hexact
    by (vm_compute; discriminate).
  assert (isTransitioning exampleSlider = false) as Hflag by reflexivity.
  pose proof (proj2 (burst_first_accepted
                       [GoTo (JS.Int 0); Next; Next; Prev; GoTo (JS.Int 2)]
                       exampleSlider Hexact) Hflag)
    as Hburst.
  split; [exact Hexact | split; [exact Hflag | split]].
  - exact Hburst.
  - rewrite Hburst. reflexivity.
Defined.

(** ** Exactly one active slide *)

Lemma classList_active_lookup (l : list bool) (i : Z) (b : bool)
    (j : nat) (y : bool) :
  classList_active l i b !! j = Some y <->
  (Z.of_nat j = i /\ y = b /\ (j < length l)%nat) \/
  (Z.of_nat j <> i /\ l !! j = Some y).
Proof.
  unfold classList_active. destruct (Z.ltb_spec i 0) as [Hneg | Hpos].
  - split; [intros Hj; right; split; [lia | exact Hj] |].
    intros [(? & _) | (_ & ?)]; [lia | assumption].
  - rewrite list_lookup_insert_Some. split.
    + intros [(<- & <- & ?) | (? & ?)]; [left | right]; repeat split;
        try assumption; lia.
    + intros [(? & -> & ?) | (? & ?)]; [left | right]; repeat split;
        try assumption; lia.
Qed.

Lemma classList_at_lookup (l : list bool) (a : JS.number) (b : bool)
    (j : nat) (y : bool) :
  classList_at l a b !! j = Some y <->
  (JS.Int (Z.of_nat j) = a /\ y = b /\ (j < length l)%nat) \/
  (JS.Int (Z.of_nat j) <> a /\ l !! j = Some y).
Proof.
  destruct a as [i |]; simpl.
  - rewrite classList_active_lookup. split.
    + intros [(<- & ? & ?) | (? & ?)]; [now left | right].
      split; [congruence | assumption].
    + intros [([= <-] & ? & ?) | (? & ?)]; [now left | right].
      split; [congruence | assumption].
  - split; [intros H; right; split; [discriminate | exact H] |].
    intros [(? & _) | (_ & ?)]; [discriminate | assumption].
Qed.

(** Moving the class from the current element to the element at [index]
    keeps it on one element at most, the one at [index]. *)
Lemma activeOnly_toggle (l : list bool) (cur index : JS.number) :
  activeOnly l cur ->
  activeOnly (classList_at (classList_at l cur false) index true) index.
Proof.
  intros Hinv j b Hj.
  apply classList_at_lookup in Hj.
  destruct Hj as [(Hji & -> & _) | (Hji & Hj)]; [tauto |].
  apply classList_at_lookup in Hj.
  destruct Hj as [(_ & -> & _) | (Hjc & Hj)].
  - split; [discriminate | contradiction].
  - specialize (Hinv j b Hj). split; [| contradiction].
    intros Hb. apply Hinv in Hb. contradiction.
Qed.

Lemma run_activeOnly (c : Command) (s : Slider) :
  activeOnly (slides (dom s)) (currentIndex s) /\
  activeOnly (dots (dom s)) (currentIndex s) ->
  activeOnly (slides (dom (run c s))) (currentIndex (run c s)) /\
  activeOnly (dots (dom (run c s))) (currentIndex (run c s)).
Proof.
  intros [Hs Hd].
  destruct (run_cases c s) as [-> | (Hflag & _ & ->)]; [now split |].
  rewrite (updateSlide_accepted _ _ Hflag). simpl.
  destruct (pageAfter_slides (commandTarget c s) s) as [-> ->].
  split; now apply activeOnly_toggle.
Qed.

Lemma step_activeOnly (e : Event) (s : Slider) :
  activeOnly (slides (dom s)) (currentIndex s) /\
  activeOnly (dots (dom s)) (currentIndex s) ->
  activeOnly (slides (dom (step e s))) (currentIndex (step e s)) /\
  activeOnly (dots (dom (step e s))) (currentIndex (step e s)).
Proof.
  apply (step_preserves
           (fun x => activeOnly (slides (dom x)) (currentIndex x) /\
                     activeOnly (dots (dom x)) (currentIndex x))); clear s.
  - intros c s _. apply run_activeOnly.
  - intros p s H. exact H.
  - intros p s H. exact H.
  - intros s H. now rewrite pauseAutoPlay_fields.
  - intros s H. now destruct (startAutoPlay_cases s) as [-> | (_ & _ & ->)].
  - intros s H. unfold fireTimeout. now destruct (timeouts s).
  - intros s H. unfold fireTimelineCall.
    destruct (timeline s) as [| [index |] rest]; [exact H | | exact H].
    simpl.
    now destruct (updateContent_dom_slides (pets s) index (dom s))
      as (-> & -> & _).
  - intros _ s H. exact H.
  - intros _ s H. exact H.
Qed.

(** X2: on a page where no slide and no dot other than the first carries
    [active], every initialized slider keeps, whatever the events, the class
    on the slide and on the dot at the current index and on no other (on none
    at all when the index is not the index of an element). *)
Theorem one_active_slide
    (options : Options) (page : Dom) (es : list Event)
    (Hc : container page = true) (Hs : slides page <> [])
    (Hslides : forall j, (0 < j)%nat -> slides page !! j <> Some true)
    (Hdots : forall j, (0 < j)%nat -> dots page !! j <> Some true) :
  let s := steps es (construct options page) in
  activeOnly (slides (dom s)) (currentIndex s) /\
  activeOnly (dots (dom s)) (currentIndex s).
Proof.
  cbv zeta.
  assert (forall l : list bool,
             (forall j, (0 < j)%nat -> l !! j <> Some true) ->
             activeOnly
               (classList_at (classList_at l (JS.Int 0) false) (JS.Int 0) true)
               (JS.Int 0))
    as Hinit.
  { intros l Hl j b Hj.
    apply classList_at_lookup in Hj.
    destruct Hj as [(Hji & -> & _) | (Hji & Hj)]; [tauto |].
    apply classList_at_lookup in Hj.
    destruct Hj as [(? & _) | (_ & Hj)]; [contradiction |].
    split; [| contradiction].
    intros ->. exfalso. apply (Hl j); [| exact Hj].
    destruct j; [contradiction | lia]. }
  assert (activeOnly (slides (dom (construct options page)))
            (currentIndex (construct options page)) /\
          activeOnly (dots (dom (construct options page)))
            (currentIndex (construct options page))) as H0.
  { unfold construct.
    set (s0 := mkSlider page _ _ _ _ _ _ _ _ _ _ _).
    assert (exists s2, init s0 = updateSlide (JS.Int 0) false s2 /\
                       slides (dom s2) = slides page /\
                       dots (dom s2) = dots page /\
                       currentIndex s2 = JS.Int 0)
      as (s2 & -> & Hs2 & Hd2 & Hi2).
    { unfold init. change (container (dom s0)) with (container page).
      change (slideCount s0) with (Z.of_nat (length (slides page))).
      rewrite Hc. simpl negb. simpl orb.
      destruct (Z.eqb_spec (Z.of_nat (length (slides page))) 0) as [H0 | _].
      { destruct (slides page); [congruence | simpl in H0; lia]. }
      eexists. split; [reflexivity |].
      unfold setupEventListeners.
      change (autoPlay (set_listening true s0)) with (autoPlay s0).
      destruct (autoPlay s0); [| now repeat split].
      destruct (startAutoPlay_cases (set_listening true s0))
        as [-> | (_ & _ & ->)]; now repeat split. }
    rewrite updateSlide_initial. simpl.
    destruct (pageAfter_slides (JS.Int 0) s2) as [-> ->].
    rewrite Hs2, Hd2, Hi2. split; now apply Hinit. }
  revert H0. generalize (construct options page) as s.
  induction es as [| e es IH]; intros s H0; [exact H0 |].
  simpl. apply IH. now apply step_activeOnly.
Qed.

Lemma one_active_slide_witness :
  container examplePage = true /\
  slides
    (dom (steps [TimeoutFire; Call Next; TimeoutFire; ClickDot 2]
            (construct (mkOptions (Some examplePets) None None) examplePage)))
  !! 2%nat = Some true /\
  activeOnly
    (slides
       (dom (steps [TimeoutFire; Call Next; TimeoutFire; ClickDot 2]
               (construct (mkOptions (Some examplePets) None None)
                  examplePage))))
    (JS.Int 2).
Proof.
  split; [reflexivity | split; [reflexivity |]].
  assert (forall j, (0 < j)%nat -> slides examplePage !! j <> Some true) as H1.
  { intros j Hj. do 4 (destruct j as [| j]; [simpl; (lia || discriminate) |]).
    discriminate. }
  exact (proj1 (one_active_slide (mkOptions (Some examplePets) None None)
                  examplePage [TimeoutFire; Call Next; TimeoutFire; ClickDot 2]
                  eq_refl ltac:(discriminate) H1 H1)).
Defined.

(** ** Pausing and resuming the autoplay *)

Lemma run_autoplay_off (c : Command) (s : Slider) :
  autoPlay s = false /\ autoPlayTimer s = None ->
  autoPlay (run c s) = false /\ autoPlayTimer (run c s) = None.
Proof. intros [Ha Ht]. destruct (run_timer c s) as [-> ->]. now split. Qed.

(** X3: after [pause()] the autoplay stays off until [play()] is called:
    whatever else happens (hovering in and out, commands, timers,
    [destroy()]), [autoPlay] is false, no interval runs, and a tick of the
    interval changes nothing. *)
Theorem pause_holds_until_play (s : Slider) (es : list Event)
    (Hes : Forall (fun e => e <> CallPlay) es) :
  let s' := steps es (pause s) in
  autoPlay s' = false /\ autoPlayTimer s' = None /\
  step IntervalTick s' = s'.
Proof.
  cbv zeta.
  assert (autoPlay (steps es (pause s)) = false /\
          autoPlayTimer (steps es (pause s)) = None) as [Ha Ht].
  { assert (autoPlay (pause s) = false /\ autoPlayTimer (pause s) = None) as H0
      by (unfold pause; now rewrite pauseAutoPlay_fields).
    revert H0. generalize (pause s) as x.
    induction Hes as [| e es He _ IH]; intros x H0; [exact H0 |].
    simpl. apply IH. revert x H0.
    apply (step_preserves
             (fun x => autoPlay x = false /\ autoPlayTimer x = None)).
    - intros c x _. apply run_autoplay_off.
    - intros p x H. exact H.
    - intros p x H. exact H.
    - intros x [Ha Ht]. now rewrite pauseAutoPlay_fields.
    - intros x [Ha Ht]. rewrite startAutoPlay_eq, Ha. now split.
    - intros x H. unfold fireTimeout. now destruct (timeouts x).
    - intros x H. unfold fireTimelineCall.
      now destruct (timeline x) as [| [i |] rest].
    - intros Hplay. contradiction.
    - intros _ x [_ Ht]. now split. }
  repeat split; try assumption.
  simpl. unfold fireInterval. now rewrite Ht.
Qed.

Lemma pause_holds_until_play_witness :
  Forall (fun e => e <> CallPlay) [MouseEnter; MouseLeave; Call Next] /\
  autoPlayTimer
    (steps [MouseEnter; MouseLeave; Call Next] (pause exampleSlider)) = None.
Proof.
  assert (Forall (fun e => e <> CallPlay) [MouseEnter; MouseLeave; Call Next])
    as Hes by (repeat constructor; discriminate).
  split; [exact Hes |].
  exact (proj1 (proj2 (pause_holds_until_play exampleSlider _ Hes))).
Defined.

(** X4: [pause()] followed by [play()] leaves autoplay on with a fresh
    interval of period [autoPlayDelay] when there is more than one slide (and
    no interval otherwise), and issues no command: the index, the flag, the
    pending timers and the page are as before. *)
Theorem pause_then_play (s : Slider) :
  let s' := steps [CallPause; CallPlay] s in
  autoPlay s' = true /\
  autoPlayTimer s'
  = (if 1 <? slideCount s then Some (autoPlayDelay s) else None) /\
  currentIndex s' = currentIndex s /\
  isTransitioning s' = isTransitioning s /\
  timeouts s' = timeouts s /\ timeline s' = timeline s /\
  dom s' = dom s /\ autoPlayDelay s' = autoPlayDelay s.
Proof.
  cbv zeta. unfold steps. simpl. unfold play, pause.
  rewrite pauseAutoPlay_fields, startAutoPlay_eq. simpl.
  change (slideCount _) with (slideCount s).
  destruct (Z.leb_spec (slideCount s) 1); destruct (Z.ltb_spec 1 (slideCount s));
    try lia; now repeat split.
Qed.

(** X5: [destroy()] only clears the interval; the listeners stay, so on a
    slider with autoplay on and more than one slide the next [mouseleave]
    starts the interval again, and commands are still accepted: with the
    current index a safe integer or [NaN] (so that its successor and its
    predecessor are computed exactly), a command on the idle slider whose
    target is not [===] to the current index moves the index to its
    target. *)
Theorem destroy_keeps_listeners (s : Slider)
    (Hl : listening s = true) (Ha : autoPlay s = true)
    (Hn : 1 < slideCount s) (Hexact : JS.exact (currentIndex s)) :
  autoPlayTimer (step CallDestroy s) = None /\
  listening (step CallDestroy s) = true /\
  autoPlayTimer (step MouseLeave (step CallDestroy s))
  = Some (autoPlayDelay s) /\
  (forall c, isTransitioning s = false ->
     JS.strictEq (commandTarget c s) (currentIndex s) = false ->
     currentIndex (step (Call c) (step CallDestroy s)) = commandTarget c s).
Proof.
  simpl. unfold destroy, listener. rewrite pauseAutoPlay_fields. simpl.
  rewrite Hl. split; [reflexivity | split; [reflexivity | split]].
  - rewrite startAutoPlay_eq. simpl. rewrite Ha.
    change (slideCount _) with (slideCount s).
    now destruct (Z.leb_spec (slideCount s) 1); [lia |].
  - intros c Hflag Hne.
    set (d := mkSlider _ _ _ _ _ _ _ _ _ _ _ _).
    assert (commandTarget c d = commandTarget c s) as Ht by now destruct c.
    rewrite (run_idle c d Hflag), Ht.
    change (currentIndex d) with (currentIndex s).
    rewrite Hne.
    now rewrite (updateSlide_accepted _ d Hflag).
Qed.

Lemma destroy_keeps_listeners_witness :
  listening exampleSlider = true /\ autoPlay exampleSlider = true /\
  1 < slideCount exampleSlider /\ JS.exact (currentIndex exampleSlider) /\
  autoPlayTimer (step MouseLeave (step CallDestroy exampleSlider))
  = Some 5000 /\
  currentIndex (step (Call Prev) (step CallDestroy exampleSlider)) = JS.Int 2.
Proof.
  assert (JS.exact (currentIndex exampleSlider)) as Hexact
    by (unfold JS.exact, JS.isSafeInteger; simpl; lia).
  split; [reflexivity | split; [reflexivity | split; [reflexivity |]]].
  split; [exact Hexact |].
  destruct (destroy_keeps_listeners exampleSlider eq_refl eq_refl eq_refl
              Hexact) as (_ & _ & Hleave & Hcmd).
  split; [exact Hleave | exact (Hcmd Prev eq_refl eq_refl)].
Defined.

(** X10: on an initialized slider whose interval is running, hovering in
    and out again leaves the whole state as it was: the interval is cleared
    and started again with the same period, and nothing else moves. *)
Theorem hover_round_trip (s : Slider) (p : Z)
    (Hs : reachable s) (Hp : autoPlayTimer s = Some p) :
  autoPlayTimer (step MouseEnter s) = None /\
  autoPlay (step MouseEnter s) = true /\
  steps [MouseEnter; MouseLeave] s = s.
Proof.
  assert (listening s = true /\ timerInvariant s) as [Hl Hinv].
  { clear p Hp. induction Hs as [options page Hc Hne | e s Hs [IHl IHt]].
    - destruct (construct_initialized options page Hc Hne)
        as (_ & _ & _ & _ & Hl & _ & Ha & Hd & Ht & Hn).
      split; [exact Hl |].
      intros q Hq. rewrite Ht in Hq. rewrite Ha, Hd, Hn.
      destruct (autoPlay_of (opt_autoPlay options)); [| discriminate].
      destruct (Z.ltb_spec 1 (Z.of_nat (length (slides page))));
        [| discriminate].
      injection Hq as <-. now repeat split.
    - split.
      + revert IHl. clear. revert s.
        apply (step_preserves (fun x => listening x = true)).
        * intros c s _ H.
          destruct (run_cases c s) as [-> | (Hflag & _ & ->)]; [exact H |].
          now rewrite (updateSlide_accepted _ _ Hflag).
        * intros q s H. exact H.
        * intros q s H. exact H.
        * intros s H. now rewrite pauseAutoPlay_fields.
        * intros s H.
          now destruct (startAutoPlay_cases s) as [-> | (_ & _ & ->)].
        * intros s H. unfold fireTimeout. now destruct (timeouts s).
        * intros s H. unfold fireTimelineCall.
          now destruct (timeline s) as [| [i |] rest].
        * intros _ s H. exact H.
        * intros _ s H. exact H.
      + exact (effect_timerInvariant s _ (step_timerEffect e s)
                 (step_sameSetting e s) IHt). }
  destruct (Hinv p Hp) as (-> & Ha & Hn).
  unfold steps. simpl. unfold listener. rewrite Hl, pauseAutoPlay_fields.
  simpl. rewrite Hl. split; [reflexivity | split; [exact Ha |]].
  rewrite startAutoPlay_eq. simpl. rewrite Ha.
  change (slideCount _) with (slideCount s).
  destruct (Z.leb_spec (slideCount s) 1); [lia |]. simpl.
  destruct s; simpl in *. now subst.
Qed.

Lemma hover_round_trip_witness :
  reachable exampleSlider /\ autoPlayTimer exampleSlider = Some 5000 /\
  steps [MouseEnter; MouseLeave] exampleSlider = exampleSlider.
Proof.
  assert (reachable exampleSlider) as Hs.
  { unfold exampleSlider. apply reach_step.
    apply reach_construct; [reflexivity | discriminate]. }
  split; [exact Hs | split; [reflexivity |]].
  exact (proj2 (proj2 (hover_round_trip exampleSlider 5000 Hs eq_refl))).
Defined.

(** ** A page without the slider *)

(** X6: constructed on a page that lacks the container or has no slide, the
    slider registers no listener and starts no timer, and no browser event
    (listener or timer), in any number and order, changes it. *)
Theorem construct_without_slider
    (options : Options) (page : Dom) (es : list Event)
    (Hpage : container page = false \/ slides page = [])
    (Hes : Forall browserEvent es) :
  let s := construct options page in
  listening s = false /\ isTransitioning s = false /\
  autoPlayTimer s = None /\ timeouts s = [] /\ timeline s = [] /\
  dom s = page /\ steps es s = s.
Proof.
  cbv zeta.
  assert (construct options page
          = mkSlider page (default [] (opt_pets options)) (JS.Int 0) false
              (autoPlay_of (opt_autoPlay options))
              (autoPlayDelay_of (opt_autoPlayDelay options))
              None [] [] false (0, 0) (0, 0)) as ->.
  { unfold construct, init. simpl. unfold slideCount. simpl.
    destruct Hpage as [-> | ->]; [reflexivity |].
    simpl. now rewrite orb_true_r. }
  repeat split.
  induction Hes as [| e es He _ IH]; [reflexivity |].
  simpl. destruct e; simpl in He; try contradiction; exact IH.
Qed.

Lemma construct_without_slider_witness :
  Forall browserEvent [ClickNext; KeyDown "ArrowRight"; IntervalTick] /\
  steps [ClickNext; KeyDown "ArrowRight"; IntervalTick]
    (construct (mkOptions (Some examplePets) None None)
       (mkDom false [false; false] [] None None None None None None))
  = construct (mkOptions (Some examplePets) None None)
      (mkDom false [false; false] [] None None None None None None).
Proof.
  assert (Forall browserEvent [ClickNext; KeyDown "ArrowRight"; IntervalTick])
    as Hes by (repeat constructor).
  split; [exact Hes |].
  apply (construct_without_slider (mkOptions (Some examplePets) None None)
           (mkDom false [false; false] [] None None None None None None)
           _ (or_introl eq_refl) Hes).
Defined.

(** ** A single slide *)

(** X7: with a single slide, an initialized slider never starts an animated
    transition and never runs the autoplay interval, whatever the events (with
    goto indices that are indices of slides): the index stays 0, no timeline
    call is ever queued, and the only timeout ever pending is the initial
    one. *)
Theorem single_slide_is_still
    (options : Options) (page : Dom) (es : list Event)
    (Hc : container page = true) (Hone : length (slides page) = 1%nat)
    (Hes : Forall (gotoInBounds 1) es) :
  let s := steps es (construct options page) in
  currentIndex s = JS.Int 0 /\ timeline s = [] /\ autoPlayTimer s = None /\
  (timeouts s = [0] \/ timeouts s = []).
Proof.
  cbv zeta.
  assert (slides page <> []) as Hs by (destruct (slides page); [discriminate | congruence]).
  destruct (construct_initialized options page Hc Hs)
    as (Hi & _ & Hq & Hl & _ & _ & _ & _ & Ht & Hn).
  rewrite Hone in Ht, Hn. simpl in Ht. rewrite andb_false_r in Ht.
  set (P := fun x : Slider =>
              slideCount x = 1 /\ currentIndex x = JS.Int 0 /\
              timeline x = [] /\
              autoPlayTimer x = None /\ (timeouts x = [0] \/ timeouts x = [])).
  assert (P (steps es (construct options page))) as (_ & H).
  { assert (P (construct options page)) as H0
      by (unfold P; rewrite Hq; auto 6).
    revert H0. generalize (construct options page) as x.
    induction Hes as [| e es He _ IH]; intros x H0; [exact H0 |].
    simpl. apply IH. revert x H0.
    assert (forall c x, mayIssue e c -> P x -> run c x = x) as Hrun.
    { intros c x Hc' (Hn' & Hi' & _).
      destruct (run_cases c x) as [Heq | (_ & Hne & _)]; [exact Heq |].
      exfalso. rewrite Hi' in Hne.
      destruct c as [| | index]; simpl in Hne; rewrite ?Hn', ?Hi' in Hne;
        try discriminate.
      assert (indexInRange index 1) as Hin.
      { destruct e; simpl in Hc'; try contradiction;
          try (destruct Hc'; discriminate); try discriminate;
          first [injection Hc' as -> | rewrite <- Hc' in He];
          simpl in He |- *; (exact He || lia). }
      destruct index as [i |]; simpl in Hin; [| contradiction].
      simpl in Hne. apply Z.eqb_neq in Hne. lia. }
    apply (step_preserves P).
    - intros c x Hc' HP. now rewrite (Hrun c x Hc' HP).
    - intros p x HP. exact HP.
    - intros p x HP. exact HP.
    - intros x HP. rewrite pauseAutoPlay_fields. unfold P in *. simpl.
      tauto.
    - intros x (Hn' & HP). rewrite startAutoPlay_eq, Hn'. simpl.
      rewrite orb_true_r. now split.
    - intros x (Hn' & Hi' & Hl' & Ht' & Hq'). unfold fireTimeout.
      destruct (timeouts x) as [| d rest] eqn:Hx; unfold P; simpl;
        rewrite ?Hx; [auto 6 |].
      repeat split; try assumption.
      destruct Hq' as [[= _ <-] | [=]]. now right.
    - intros x (Hn' & Hi' & Hl' & HP). unfold fireTimelineCall.
      rewrite Hl'. now repeat split.
    - intros _ x HP. exact HP.
    - intros _ x HP. exact HP. }
  exact H.
Qed.

Lemma single_slide_is_still_witness :
  Forall (gotoInBounds 1)
    [TimeoutFire; ClickNext; Call (GoTo (JS.Int 0)); CallPlay] /\
  currentIndex
    (steps [TimeoutFire; ClickNext; Call (GoTo (JS.Int 0)); CallPlay]
       (construct (mkOptions None None None)
          (mkDom true [false] [false] None None None None None None)))
  = JS.Int 0.
Proof.
  assert (Forall (gotoInBounds 1)
            [TimeoutFire; ClickNext; Call (GoTo (JS.Int 0)); CallPlay]) as Hes
    by (repeat constructor; simpl; lia).
  split; [exact Hes |].
  exact (proj1 (single_slide_is_still (mkOptions None None None)
                  (mkDom true [false] [false] None None None None None None)
                  _ eq_refl eq_refl Hes)).
Defined.

(** ** What the events leave alone *)

Lemma assign_is_Some (el : option string) (v : string) :
  bool_decide (is_Some (assign el v)) = bool_decide (is_Some el).
Proof. now destruct el. Qed.

Lemma updateContent_dom_elements ps index d :
  elements (updateContent_dom ps index d) = elements d.
Proof.
  unfold updateContent_dom. destruct (JS.at_ ps index); [| reflexivity].
  unfold elements. simpl. now rewrite !assign_is_Some.
Qed.

Lemma pageAfter_samePage (index : JS.number) (s : Slider) :
  container (pageAfter index s) = container (dom s) /\
  length (slides (pageAfter index s)) = length (slides (dom s)) /\
  length (dots (pageAfter index s)) = length (dots (dom s)) /\
  elements (pageAfter index s) = elements (dom s).
Proof.
  destruct (pageAfter_slides index s) as [-> ->].
  rewrite !classList_at_length.
  unfold pageAfter. destruct index as [i |]; [| now repeat split].
  destruct (Z.of_nat (length (pets s)) >? i); [| now repeat split].
  rewrite updateContent_dom_elements.
  destruct (updateContent_dom_slides (pets s) i
              (toggleActive (currentIndex s) (JS.Int i) (dom s)))
    as (_ & _ & ->).
  now repeat split.
Qed.

(** X8: no event adds or removes anything: after any events the pets, the
    delay, the container, the numbers of slides and of dots, and the set of
    content elements the page has are what they were; an element the page
    lacks is never written. *)
Theorem events_keep_the_page (s : Slider) (es : list Event) :
  samePage s (steps es s).
Proof.
  assert (samePage s s) as H0 by now repeat split.
  revert H0. generalize s at 2 4 as x.
  induction es as [| e es IH]; intros x H0; [exact H0 |].
  simpl. apply IH. revert x H0.
  apply (step_preserves (samePage s)); unfold samePage.
  - intros c x _ H.
    destruct (run_cases c x) as [-> | (Hflag & _ & ->)]; [exact H |].
    rewrite (updateSlide_accepted _ _ Hflag). simpl.
    destruct (pageAfter_samePage (commandTarget c x) x) as (-> & -> & -> & ->).
    exact H.
  - intros p x H. exact H.
  - intros p x H. exact H.
  - intros x H. now rewrite pauseAutoPlay_fields.
  - intros x H. now destruct (startAutoPlay_cases x) as [-> | (_ & _ & ->)].
  - intros x H. unfold fireTimeout. now destruct (timeouts x).
  - intros x H. unfold fireTimelineCall.
    destruct (timeline x) as [| [index |] rest]; [exact H | | exact H].
    simpl. rewrite updateContent_dom_elements.
    now destruct (updateContent_dom_slides (pets x) index (dom x))
      as (-> & -> & ->).
  - intros _ x H. exact H.
  - intros _ x H. exact H.
Qed.

(** ** A transition to a slide that has a pet *)

Lemma assign_assign (el : option string) (v w : string) :
  assign (assign el v) w = assign el w.
Proof. now destruct el. Qed.

(** X9: an accepted transition to an index that has a pet shows that pet at
    once, before any animation callback: every content element the page has
    holds the text of the pet (title in upper case, both links to
    [/adopt/id], counter, age, breed) as soon as [goToSlide] returns, and an
    element the page lacks stays absent; the timeline call and the completion
    that follow write the same values again.  The pet is one whose name is
    ASCII text and whose id and age are safe integers, and the counter value
    [index + 1] is a safe integer: there the upper case and the numerals of
    the page are those of [contentOf]. *)
Theorem transition_shows_pet (s : Slider) (index : Z) (pet : Pet)
    (Hflag : isTransitioning s = false)
    (Hne : JS.Int index <> currentIndex s)
    (Hpet : JS.at_ (pets s) index = Some pet)
    (Hname : JS.isAscii (pet_name pet))
    (Hid : JS.isSafeInteger (pet_id pet))
    (Hage : JS.isSafeInteger (pet_age pet))
    (Hcounter : JS.isSafeInteger (index + 1)) :
  content (dom (goToSlide (JS.Int index) s)) = contentOf pet index (dom s) /\
  currentIndex (goToSlide (JS.Int index) s) = JS.Int index /\
  (timeline s = [] ->
   content
     (dom (steps [Call (GoTo (JS.Int index)); TimelineCall; TimeoutFire] s))
   = contentOf pet index (dom s) /\
   currentIndex
     (steps [Call (GoTo (JS.Int index)); TimelineCall; TimeoutFire] s)
   = JS.Int index).
Proof.
  clear Hname Hid Hage Hcounter.
  assert ((Z.of_nat (length (pets s)) >? index) = true) as Hlen.
  { unfold JS.at_ in Hpet. destruct (Z.ltb_spec index 0); [discriminate |].
    apply lookup_lt_Some in Hpet. apply Z.gtb_lt. lia. }
  assert (goToSlide (JS.Int index) s
          = mkSlider (updateContent_dom (pets s) index
                        (toggleActive (currentIndex s) (JS.Int index) (dom s)))
              (pets s) (JS.Int index) true (autoPlay s) (autoPlayDelay s)
              (autoPlayTimer s) (timeouts s ++ [800])
              (timeline s ++ [JS.Int index])
              (listening s) (touchStart s) (touchEnd s)) as Hgo.
  { change (goToSlide (JS.Int index) s) with (run (GoTo (JS.Int index)) s).
    rewrite (run_idle _ _ Hflag). simpl commandTarget.
    destruct (JS.strictEq (JS.Int index) (currentIndex s)) eqn:Heq;
      [apply strictEq_eq in Heq; congruence |].
    rewrite (updateSlide_accepted _ _ Hflag). unfold pageAfter.
    now rewrite Hlen. }
  assert (forall d, content (updateContent_dom (pets s) index d)
                    = contentOf pet index d) as Hcontent.
  { intros d. now rewrite (updateContent_dom_found _ _ _ d Hpet). }
  split; [| split].
  - rewrite Hgo. simpl. now rewrite Hcontent.
  - now rewrite Hgo.
  - intros Htl. unfold steps. simpl. rewrite Hgo.
    unfold fireTimelineCall. simpl. rewrite Htl. simpl.
    unfold fireTimeout. simpl.
    destruct (timeouts s); simpl; (split; [| reflexivity]);
      rewrite Hcontent, (updateContent_dom_found _ _ _ _ Hpet);
      unfold contentOf; simpl; now rewrite !assign_assign.
Qed.

Lemma transition_shows_pet_witness :
  isTransitioning exampleSlider = false /\
  JS.isAscii "Misty" /\ JS.isSafeInteger 8 /\ JS.isSafeInteger 4 /\
  JS.isSafeInteger (1 + 1) /\
  content (dom (goToSlide (JS.Int 1) exampleSlider))
  = (Some "MISTY", Some "/adopt/8", Some "/adopt/8",
     Some "02", Some "4 years", Some "Siamese").
Proof.
  assert (JS.isAscii "Misty") as Hname
    by (unfold JS.isAscii; simpl; repeat constructor).
  assert (JS.isSafeInteger 8) as Hid by (unfold JS.isSafeInteger; lia).
  assert (JS.isSafeInteger 4) as Hage by (unfold JS.isSafeInteger; lia).
  assert (JS.isSafeInteger (1 + 1)) as Hcounter
    by (unfold JS.isSafeInteger; lia).
  split; [reflexivity |].
  split; [exact Hname | split; [exact Hid | split; [exact Hage |]]].
  split; [exact Hcounter |].
  exact (proj1 (transition_shows_pet exampleSlider 1
                  (mkPet 8 "Misty" 4 "Siamese")
                  eq_refl ltac:(discriminate) eq_refl
                  Hname Hid Hage Hcounter)).
Defined.

(** * Further properties of the stagger delays *)

Section StaggerMore.

Context {T : Type} (mul : Z -> T -> T).

(** The loop run on an array that already has its length rewrites every
    entry. *)
Lemma for_loop_overwrite_fold (f : Z -> T) (m : nat) :
  forall pre suf : list T,
    length suf = m ->
    fold_left (fun a i => Motion.array_set a i (f (Z.of_nat i)))
      (seq (length pre) m) (pre ++ suf)
    = pre ++ map (fun i => f (Z.of_nat i)) (seq (length pre) m).
Proof.
  induction m as [| m IH]; intros pre suf Hlen.
  - destruct suf; [reflexivity | discriminate].
  - destruct suf as [| x suf]; [discriminate |]. simpl.
    assert (Motion.array_set (pre ++ x :: suf) (length pre)
              (f (Z.of_nat (length pre)))
            = (pre ++ [f (Z.of_nat (length pre))]) ++ suf) as ->.
    { unfold Motion.array_set.
      destruct (Nat.ltb_spec (length pre) (length (pre ++ x :: suf)))
        as [_ | Hge]; [| rewrite length_app in Hge; simpl in Hge; lia].
      rewrite insert_app_r_alt by lia. rewrite Nat.sub_diag. simpl.
      now rewrite <- app_assoc. }
    replace (S (length pre))
      with (length (pre ++ [f (Z.of_nat (length pre))]))
      by (rewrite length_app; simpl; lia).
    rewrite IH by (simpl in Hlen; lia).
    now rewrite <- app_assoc.
Qed.

Lemma for_loop_overwrite (n : Z) (f : Z -> T) (delays : list T) :
  length delays = Z.to_nat n ->
  Motion.for_loop n f delays
  = map (fun i => f (Z.of_nat i)) (seq 0 (Z.to_nat n)).
Proof.
  intros Hlen. unfold Motion.for_loop.
  exact (for_loop_overwrite_fold f (Z.to_nat n) [] delays Hlen).
Qed.

(** The [switch] on a string, written with tests: anything but ['end'] and
    ['center'] takes the default branch. *)
Lemma string_delays (n : Z) (d : T) (name : string) :
  Motion.calculateStaggerDelays mul n d (Motion.FromString name)
  = if String.eqb name "end"
    then Motion.for_loop n (fun i => mul (n - 1 - i) d) []
    else if String.eqb name "center"
    then Motion.for_loop n (fun i => mul (JS.abs (i - n / 2)) d) []
    else Motion.for_loop n (fun i => mul i d) [].
Proof.
  unfold Motion.calculateStaggerDelays.
  generalize (Motion.for_loop n (fun i => mul (n - 1 - i) d) []) as a.
  generalize (Motion.for_loop n (fun i => mul (JS.abs (i - n / 2)) d) []) as b.
  generalize (Motion.for_loop n (fun i => mul i d) []) as c.
  intros c b a.
  do 7 (try (destruct name as [| [[] [] [] [] [] [] [] []] name];
             try reflexivity)).
Qed.

Lemma number_delays (n : Z) (d : T) (k : Z) :
  Motion.calculateStaggerDelays mul n d (Motion.FromNumber k)
  = map (fun i => mul (JS.abs (Z.of_nat i - k)) d) (seq 0 (Z.to_nat n)).
Proof.
  unfold Motion.calculateStaggerDelays.
  rewrite for_loop_overwrite; [reflexivity |].
  now rewrite for_loop_map, length_map, length_seq.
Qed.

Lemma center_delays (n : Z) (d : T) :
  Motion.calculateStaggerDelays mul n d (Motion.FromString "center")
  = map (fun i => mul (JS.abs (Z.of_nat i - n / 2)) d) (seq 0 (Z.to_nat n)).
Proof. rewrite string_delays. simpl. apply for_loop_map. Qed.

(** X11: whatever the [from] option (['start'], ['end'], ['center'], any
    other string, any number), the list has one delay per element: its length
    is the element count (0 for a negative count), so [delays[index]] is
    defined for each element that [Motion.stagger] animates. *)
Theorem stagger_one_delay_per_element (n : Z) (d : T) (from : Motion.From) :
  length (Motion.calculateStaggerDelays mul n d from) = Z.to_nat n /\
  (forall i : nat,
      is_Some (Motion.calculateStaggerDelays mul n d from !! i)
      <-> (i < Z.to_nat n)%nat).
Proof.
  assert (length (Motion.calculateStaggerDelays mul n d from) = Z.to_nat n)
    as Hlen.
  { destruct from as [name | k].
    - rewrite string_delays.
      destruct (String.eqb name "end"); [| destruct (String.eqb name "center")];
        now rewrite for_loop_map, length_map, length_seq.
    - now rewrite number_delays, length_map, length_seq. }
  split; [exact Hlen |].
  intros i. rewrite lookup_lt_is_Some. now rewrite Hlen.
Qed.

(** X12: a numeric [from] measures the distance to that index: entry [i] is
    [|i - k| * d]; so [from = 0] gives the delays of ['start'],
    [from = length - 1] those of ['end'], and [from = floor(length / 2)]
    those of ['center']. *)
Theorem stagger_from_index (n : Z) (d : T) (k : Z) :
  Motion.calculateStaggerDelays mul n d (Motion.FromNumber k)
  = map (fun i => mul (Z.abs (Z.of_nat i - k)) d) (seq 0 (Z.to_nat n)) /\
  Motion.calculateStaggerDelays mul n d (Motion.FromNumber 0)
  = Motion.calculateStaggerDelays mul n d (Motion.FromString "start") /\
  Motion.calculateStaggerDelays mul n d (Motion.FromNumber (n - 1))
  = Motion.calculateStaggerDelays mul n d (Motion.FromString "end") /\
  Motion.calculateStaggerDelays mul n d (Motion.FromNumber (n / 2))
  = Motion.calculateStaggerDelays mul n d (Motion.FromString "center").
Proof.
  rewrite !number_delays, start_delays, end_delays, center_delays.
  unfold JS.abs. repeat split; apply map_ext_in; intros i Hi;
    apply in_seq in Hi; f_equal; lia.
Qed.

(** X13: a [from] string other than ['end'] and ['center'] is treated as
    ['start']; and from the center the element in the middle starts at once
    ([0 * d]) while, for an odd count, the delays read the same in both
    directions. *)
Theorem stagger_default_and_center (n : Z) (d : T) (name : string)
    (Hend : name <> "end") (Hcenter : name <> "center") :
  Motion.calculateStaggerDelays mul n d (Motion.FromString name)
  = Motion.calculateStaggerDelays mul n d (Motion.FromString "start") /\
  (0 < n ->
   Motion.calculateStaggerDelays mul n d (Motion.FromString "center")
   !! Z.to_nat (n / 2) = Some (mul 0 d)) /\
  (Z.odd n = true ->
   rev (Motion.calculateStaggerDelays mul n d (Motion.FromString "center"))
   = Motion.calculateStaggerDelays mul n d (Motion.FromString "center")).
Proof.
  split; [| split].
  - rewrite !string_delays. simpl.
    destruct (String.eqb_spec name "end"); [contradiction |].
    now destruct (String.eqb_spec name "center"); [contradiction |].
  - intros Hn. rewrite center_delays.
    assert (0 <= n / 2 < n) as Hhalf
      by (split; [apply Z.div_pos; lia | apply Z.div_lt_upper_bound; lia]).
    rewrite list_lookup_fmap, lookup_seq_lt by lia. simpl.
    unfold JS.abs. f_equal. f_equal. lia.
  - intros Hodd. rewrite center_delays.
    rewrite (rev_map_seq
               (fun i => mul (JS.abs (Z.of_nat i - n / 2)) d) (Z.to_nat n)).
    apply map_ext_in. intros i Hi. apply in_seq in Hi.
    unfold JS.abs. f_equal.
    apply Z.odd_spec in Hodd. destruct Hodd as [m Hm].
    assert (n / 2 = m) as ->
      by (subst n; symmetry; apply Z.div_unique with 1; lia).
    lia.
Qed.

End StaggerMore.

Lemma stagger_default_and_center_witness :
  "edges" <> "end" /\ Z.odd 5 = true /\
  Motion.calculateStaggerDelays Z.mul 5 100 (Motion.FromString "edges")
  = Motion.calculateStaggerDelays Z.mul 5 100 (Motion.FromString "start") /\
  rev (Motion.calculateStaggerDelays Z.mul 5 100 (Motion.FromString "center"))
  = Motion.calculateStaggerDelays Z.mul 5 100 (Motion.FromString "center").
Proof.
  assert ("edges" <> "end") as Hend by discriminate.
  assert ("edges" <> "center") as Hcenter by discriminate.
  destruct (stagger_default_and_center Z.mul 5 100 "edges" Hend Hcenter)
    as (Hdefault & _ & Hsym).
  split; [exact Hend | split; [reflexivity | split]].
  - exact Hdefault.
  - exact (Hsym eq_refl).
Defined.

(** * Properties of the helpers of [MotionElement] *)

Lemma getResetState_lookup {V} (animation : gmap string V) (key : string) :
  MotionElement.getResetState animation !! key
  = match animation !! key with
    | Some _ => MotionElement.resetValue key
    | None => None
    end.
Proof.
  unfold MotionElement.getResetState. revert key.
  apply (map_fold_weak_ind
           (fun (reset : gmap string Z) (m : gmap string V) =>
              forall key, reset !! key
                          = match m !! key with
                            | Some _ => MotionElement.resetValue key
                            | None => None
                            end)).
  - intros key. now rewrite !lookup_empty.
  - intros i x m r Hi IH key.
    destruct (decide (i = key)) as [-> | Hne].
    + rewrite lookup_insert_eq.
      destruct (MotionElement.resetValue key) as [v |] eqn:Hv.
      * now rewrite lookup_insert_eq.
      * now rewrite IH, Hi.
    + rewrite (lookup_insert_ne m) by assumption.
      destruct (MotionElement.resetValue i).
      * now rewrite lookup_insert_ne by assumption.
      * apply IH.
Qed.

Lemma resetValue_values (key : string) (v : Z) :
  MotionElement.resetValue key = Some v -> v = 0 \/ v = 1.
Proof.
  unfold MotionElement.resetValue.
  repeat (destruct (bool_decide _)); intros [= <-]; auto.
Qed.

(** X14: the reset state has exactly the properties of the animation that
    the [switch] knows, each at its identity value (0 for translations,
    rotations and skews, 1 for scales and opacity), and nothing for any other
    property; resetting a reset state gives it back. *)
Theorem reset_state_is_identity {V} (animation : gmap string V) :
  (forall key,
      MotionElement.getResetState animation !! key
      = match animation !! key with
        | Some _ => MotionElement.resetValue key
        | None => None
        end) /\
  base.dom (MotionElement.getResetState animation) ⊆ base.dom animation /\
  (forall key v,
      MotionElement.getResetState animation !! key = Some v ->
      v = 0 \/ v = 1) /\
  MotionElement.getResetState (MotionElement.getResetState animation)
  = MotionElement.getResetState animation.
Proof.
  split; [apply getResetState_lookup |].
  split; [| split].
  - intros key Hkey. apply elem_of_dom in Hkey. apply elem_of_dom.
    rewrite getResetState_lookup in Hkey.
    destruct (animation !! key); [eauto | now destruct Hkey].
  - intros key v. rewrite getResetState_lookup.
    destruct (animation !! key); [apply resetValue_values | discriminate].
  - apply map_eq. intros key. rewrite !getResetState_lookup.
    destruct (animation !! key); [| reflexivity].
    now destruct (MotionElement.resetValue key).
Qed.

Example reset_state_of_lift :
  MotionElement.getResetState
    (<["y" := -10]> (<["scale" := 2]> (<["backgroundColor" := 7]> ∅)))
  = <["y" := 0]> (<["scale" := 1]> ∅).
Proof.
  apply map_eq. intros key. rewrite getResetState_lookup.
  destruct (decide (key = "y")) as [-> | Hy]; [reflexivity |].
  destruct (decide (key = "scale")) as [-> | Hs]; [reflexivity |].
  destruct (decide (key = "backgroundColor")) as [-> | Hb]; [reflexivity |].
  now rewrite !lookup_insert_ne, lookup_empty by congruence.
Qed.

Lemma easingMap_values :
  map_Forall
    (fun _ gsapEase =>
       String.eqb gsapEase "" = false /\
       MotionElement.convertEasing gsapEase = MotionElement.EaseName gsapEase)
    MotionElement.easingMap.
Proof.
  apply map_Forall_to_list. vm_compute. repeat constructor.
Qed.

(** X15: [convertEasing] is idempotent on ease names: the name it returns is
    returned unchanged when converted again, so a GSAP name given where a
    Framer name is expected passes through; the fourteen Framer names go to
    their GSAP names; and a name of a property of [Object.prototype] does not
    give a name at all but the inherited value. *)
Theorem convert_easing_idempotent (ease : string) :
  (forall name,
      MotionElement.convertEasing ease = MotionElement.EaseName name ->
      MotionElement.convertEasing name = MotionElement.EaseName name) /\
  (forall gsapEase,
      MotionElement.easingMap !! ease = Some gsapEase ->
      MotionElement.convertEasing ease = MotionElement.EaseName gsapEase) /\
  (ease ∈ MotionElement.objectPrototypeKeys ->
   MotionElement.convertEasing ease = MotionElement.Inherited ease).
Proof.
  split; [| split].
  - intros name. unfold MotionElement.convertEasing at 1.
    destruct (MotionElement.easingMap !! ease) as [g |] eqn:Hg.
    + destruct (easingMap_values ease g Hg) as [-> Hfix]. now intros [= <-].
    + destruct (bool_decide (ease ∈ MotionElement.objectPrototypeKeys))
        eqn:Hb; [discriminate |].
      intros [= <-]. unfold MotionElement.convertEasing. now rewrite Hg, Hb.
  - intros g Hg. unfold MotionElement.convertEasing. rewrite Hg.
    now destruct (easingMap_values ease g Hg) as [-> _].
  - intros Hin. unfold MotionElement.convertEasing.
    assert (Forall (fun key => MotionElement.easingMap !! key = None)
              MotionElement.objectPrototypeKeys) as Hkeys
      by (repeat constructor).
    rewrite Forall_forall in Hkeys. rewrite (Hkeys ease Hin).
    now rewrite bool_decide_eq_true_2.
Qed.

Lemma convert_easing_idempotent_witness :
  MotionElement.convertEasing "easeOut" = MotionElement.EaseName "power2.out" /\
  MotionElement.convertEasing "power2.out" = MotionElement.EaseName "power2.out" /\
  MotionElement.convertEasing "toString" = MotionElement.Inherited "toString".
Proof.
  destruct (convert_easing_idempotent "easeOut") as (Hidem & Hmap & _).
  destruct (convert_easing_idempotent "toString") as (_ & _ & Hproto).
  assert (MotionElement.convertEasing "easeOut"
          = MotionElement.EaseName "power2.out") as H1
    by (apply Hmap; reflexivity).
  split; [exact H1 | split].
  - exact (Hidem _ H1).
  - apply Hproto. unfold MotionElement.objectPrototypeKeys.
    repeat (first [apply list_elem_of_here | apply list_elem_of_further]).
Defined.

(** * Properties of the page utilities *)

(** ** Debouncing *)

Section DebounceProperties.

Context {A : Type} (wait : Z).

Lemma debounce_invokes (burst : list A) (st : Debounce.State A) :
  Debounce.steps wait (map Debounce.Invoke burst) st
  = match last burst with
    | Some args => Debounce.mkState (Some (wait, args)) (Debounce.calls st)
    | None => st
    end.
Proof.
  revert st. induction burst as [| a burst IH]; intros st; [reflexivity |].
  unfold Debounce.steps in *. simpl fold_left. rewrite IH.
  destruct burst as [| b burst]; [reflexivity |].
  rewrite last_cons_cons.
  destruct (last (b :: burst)) eqn:Hlast; [reflexivity |].
  apply last_None in Hlast. discriminate.
Qed.

Lemma debounce_bound (es : list (Debounce.Event A)) :
  forall st,
    (length (Debounce.calls (Debounce.steps wait es st))
     + match Debounce.pending (Debounce.steps wait es st) with
       | Some _ => 1
       | None => 0
       end
     <= length (Debounce.calls st)
        + match Debounce.pending st with Some _ => 1 | None => 0 end
        + invocations es)%nat.
Proof.
  induction es as [| e es IH]; intros st; [simpl; lia |].
  change (Debounce.steps wait (e :: es) st)
    with (Debounce.steps wait es (Debounce.step wait e st)).
  specialize (IH (Debounce.step wait e st)).
  etransitivity; [exact IH |].
  destruct e as [args |].
  - change (invocations (Debounce.Invoke args :: es))
      with (S (invocations es)).
    simpl. destruct (Debounce.pending st); lia.
  - change (invocations (Debounce.Expire :: es)) with (invocations es).
    simpl. unfold Debounce.expire.
    destruct (Debounce.pending st) as [[w a] |] eqn:Hp; simpl;
      rewrite ?length_app, ?Hp; simpl; lia.
Qed.

(** X16: a debounced function coalesces a burst: however many times it is
    called before its timer fires, the firing calls [func] once, with the
    arguments of the last call, and a further firing does nothing; calls
    alone never reach [func]; and over any history [func] has been called at
    most as often as the debounced function was. *)
Theorem debounce_coalesces (st : Debounce.State A) (burst : list A) (a : A)
    (es : list (Debounce.Event A)) :
  let st' :=
    Debounce.steps wait
      (map Debounce.Invoke burst ++ [Debounce.Invoke a; Debounce.Expire]) st in
  Debounce.calls st' = Debounce.calls st ++ [a] /\
  Debounce.pending st' = None /\
  Debounce.step wait Debounce.Expire st' = st' /\
  Debounce.calls
    (Debounce.steps wait (map Debounce.Invoke (burst ++ [a])) st)
  = Debounce.calls st /\
  (length (Debounce.calls (Debounce.steps wait es Debounce.debounce))
   <= invocations es)%nat.
Proof.
  cbv zeta.
  assert (Debounce.steps wait
            (map Debounce.Invoke burst ++ [Debounce.Invoke a; Debounce.Expire])
            st
          = Debounce.mkState None (Debounce.calls st ++ [a])) as ->.
  { unfold Debounce.steps. rewrite fold_left_app.
    fold (Debounce.steps wait (map Debounce.Invoke burst) st).
    rewrite debounce_invokes. simpl.
    now destruct (last burst). }
  repeat split.
  - rewrite debounce_invokes, last_snoc. reflexivity.
  - pose proof (debounce_bound es Debounce.debounce) as H. simpl in H. lia.
Qed.

End DebounceProperties.

(** ** The theme *)



(** ** The loading state of a button *)

(** X18: ending the loading state restores the markup the button had when
    loading began, and enables the button, provided that markup was not
    empty; a button whose markup was empty keeps the spinner; and when
    loading is begun twice before it is ended, the original markup is lost and
    the spinner stays. *)
Theorem button_loading_round_trip (button : Utils.Button) :
  let loading := Utils.setButtonLoading button true in
  let restored := Utils.setButtonLoading loading false in
  Utils.innerHTML loading = Utils.spinner /\
  Utils.disabled loading = true /\
  Utils.disabled restored = false /\
  (Utils.innerHTML button <> "" ->
   Utils.innerHTML restored = Utils.innerHTML button) /\
  (Utils.innerHTML button = "" -> Utils.innerHTML restored = Utils.spinner) /\
  Utils.innerHTML
    (Utils.setButtonLoading (Utils.setButtonLoading loading true) false)
  = Utils.spinner /\
  (Utils.originalText button = None ->
   Utils.innerHTML (Utils.setButtonLoading button false)
   = Utils.innerHTML button).
Proof.
  cbv zeta. unfold Utils.setButtonLoading. simpl.
  repeat split.
  - intros Hne. now destruct (String.eqb_spec (Utils.innerHTML button) "").
  - now intros ->.
  - now intros ->.
Qed.

Lemma button_loading_round_trip_witness :
  Utils.innerHTML
    (Utils.setButtonLoading
       (Utils.setButtonLoading (Utils.mkButton "Adopt" false None) true) false)
  = "Adopt" /\
  Utils.innerHTML
    (Utils.setButtonLoading
       (Utils.setButtonLoading (Utils.mkButton "" false None) true) false)
  = Utils.spinner.
Proof.
  split.
  - apply (proj1 (proj2 (proj2 (proj2
             (button_loading_round_trip (Utils.mkButton "Adopt" false None)))))).
    discriminate.
  - apply (proj1 (proj2 (proj2 (proj2 (proj2
             (button_loading_round_trip (Utils.mkButton "" false None))))))).
    reflexivity.
Defined.

(** ** The mobile menu *)

(** X19: when the button has its two [path] elements, a click on it never
    throws, toggles the menu, and leaves the icon in step with the menu; a
    second click brings the menu back; a click outside hides the menu, icon
    in step; a click inside the button or the menu is ignored by the document
    listener. *)
Theorem menu_icon_follows (st : MobileMenu.State)
    (Hpaths : (2 <= length (MobileMenu.paths st))%nat) :
  exists st1 st2 st3,
    MobileMenu.clickButton st = MobileMenu.Done st1 /\
    MobileMenu.clickButton st1 = MobileMenu.Done st2 /\
    MobileMenu.clickDocument true st1 = MobileMenu.Done st3 /\
    MobileMenu.clickDocument false st1 = MobileMenu.Done st1 /\
    MobileMenu.hidden (MobileMenu.menu st1)
    = negb (MobileMenu.hidden (MobileMenu.menu st)) /\
    MobileMenu.hidden (MobileMenu.menu st2)
    = MobileMenu.hidden (MobileMenu.menu st) /\
    MobileMenu.hidden (MobileMenu.menu st3) = true /\
    iconMatches st1 /\ iconMatches st2 /\ iconMatches st3 /\
    length (MobileMenu.paths st1) = length (MobileMenu.paths st) /\
    (forall i, (2 <= i)%nat ->
       MobileMenu.paths st1 !! i = MobileMenu.paths st !! i).
Proof.
  destruct st as [[h f] [| p0 [| p1 rest]]]; simpl in Hpaths; try lia.
  destruct h; do 3 eexists; unfold iconMatches;
    (repeat split; [reflexivity .. |]);
    intros [| [| i]] Hi; (lia || reflexivity).
Qed.

Lemma menu_icon_follows_witness :
  (2 <= length [MobileMenu.mkClasses false false;
                MobileMenu.mkClasses true false])%nat /\
  exists st1,
    MobileMenu.clickButton
      (MobileMenu.mkState (MobileMenu.mkClasses true false)
         [MobileMenu.mkClasses false false; MobileMenu.mkClasses true false])
    = MobileMenu.Done st1 /\
    iconMatches st1.
Proof.
  assert (2 <= length [MobileMenu.mkClasses false false;
                       MobileMenu.mkClasses true false])%nat as Hlen
    by (simpl; lia).
  split; [exact Hlen |].
  destruct (menu_icon_follows
              (MobileMenu.mkState (MobileMenu.mkClasses true false)
                 [MobileMenu.mkClasses false false;
                  MobileMenu.mkClasses true false]) Hlen)
    as (st1 & st2 & st3 & H1 & _ & _ & _ & _ & _ & _ & Hicon & _).
  exists st1. split; assumption.
Defined.

(** X20: when the button has fewer than two [path] elements, a click on it
    stops at a [TypeError], after the menu itself has been toggled. *)
Theorem menu_click_without_paths (st : MobileMenu.State)
    (Hpaths : (length (MobileMenu.paths st) < 2)%nat) :
  exists st1,
    MobileMenu.clickButton st = MobileMenu.Thrown st1 /\
    MobileMenu.hidden (MobileMenu.menu st1)
    = negb (MobileMenu.hidden (MobileMenu.menu st)) /\
    length (MobileMenu.paths st1) = length (MobileMenu.paths st).
Proof.
  destruct st as [[h f] [| p0 [| p1 rest]]]; simpl in Hpaths; try lia;
    destruct h; eexists; repeat split.
Qed.

Lemma menu_click_without_paths_witness :
  (length [MobileMenu.mkClasses false false] < 2)%nat /\
  exists st1,
    MobileMenu.clickButton
      (MobileMenu.mkState (MobileMenu.mkClasses true false)
         [MobileMenu.mkClasses false false])
    = MobileMenu.Thrown st1 /\
    MobileMenu.hidden (MobileMenu.menu st1) = false.
Proof.
  assert (length [MobileMenu.mkClasses false false] < 2)%nat as Hlen
    by (simpl; lia).
  split; [exact Hlen |].
  destruct (menu_click_without_paths
              (MobileMenu.mkState (MobileMenu.mkClasses true false)
                 [MobileMenu.mkClasses false false]) Hlen)
    as (st1 & H1 & Hh & _).
  exists st1. split; assumption.
Defined.
